(** * Delta relay and dual-transport client of websocket-poc

    A shallow embedding of

    - the Socket.IO relay ([calculateDelta], the Redis publication handler
      and the per-socket subscription handlers),
    - the reconciliation function [applyDelta] shared by the two front-end
      pages, and
    - the [games] object the pages keep, with its prototype chain,
    - the raw-WebSocket page's transport manager (reconnect counter,
      long-polling fallback, poll backoff),
    - the Socket.IO page's handlers, and
    - the loop body of the Go publisher,

    together with the properties the specification states about them. *)

From Stdlib Require Import ZArith Bool List Lia.
From Stdlib Require Import Floats.SpecFloat.
From stdpp Require Import gmap strings list fin_maps.

Local Open Scope Z_scope.

(** ** JavaScript values that occur in a snapshot

    Identifiers and team names are strings.  Scores and the timestamp are
    integers on the publishing side (Go [int], [int64]); odds are IEEE-754
    doubles ([float64] / JS [number]), modelled by the Standard Library's
    [spec_float]. *)

Module Js.

Abbreviation number := spec_float.

(** [a === b] on doubles: IEEE equality, so [NaN] differs from itself and
    the two zeros are equal. *)
Definition strict_eq_number (a b : number) : bool := SFeqb a b.

Definition strict_eq_int (a b : Z) : bool := Z.eqb a b.

Definition strict_eq_string (a b : string) : bool := String.eqb a b.

(** A field value, tagged by its type. *)
Inductive value :=
| VString (s : string)
| VInt (z : Z)
| VNumber (x : number).

(** [a !== b]: operands of different types are never strictly equal. *)
Definition strict_neq (a b : value) : bool :=
  match a, b with
  | VString x, VString y => negb (strict_eq_string x y)
  | VInt x, VInt y => negb (strict_eq_int x y)
  | VNumber x, VNumber y => negb (strict_eq_number x y)
  | _, _ => true
  end.

Definition is_negative_zero (x : number) : bool :=
  match x with
  | S754_zero true => true
  | _ => false
  end.

(** A double written from a binary fraction [m * 2^e], rounded to
    binary64. *)
Definition double (m e : Z) : number := binary_normalize 53 1024 m e false.

(** What [JSON.parse(JSON.stringify(x))] is for a double [x]: a finite
    number is written with digits that read back as the same double, except
    that the negative zero is written [0]; [NaN] and the two infinities are
    written [null], here [None]. *)
Definition JSON_roundtrip (x : number) : option number :=
  match x with
  | S754_zero _ => Some (S754_zero false)
  | S754_finite _ _ _ => Some x
  | S754_infinity _ | S754_nan => None
  end.

(** [!x] is false: every number but the zeros and [NaN] is truthy. *)
Definition truthy_number (x : number) : bool :=
  match x with
  | S754_zero _ | S754_nan => false
  | S754_infinity _ | S754_finite _ _ _ => true
  end.

End Js.

(** ** Snapshots and deltas *)

(** The fields the specification's data model lists as tracked. *)
Inductive field :=
| HomeTeam | AwayTeam | HomeScore | AwayScore | HomeOdds | AwayOdds | DrawOdds.

(** [interface GameState] / [type GameState struct]. *)
Module GameState.

Record t := mk {
  id : string;
  homeTeam : string;
  awayTeam : string;
  homeScore : Z;
  awayScore : Z;
  homeOdds : Js.number;
  awayOdds : Js.number;
  drawOdds : Js.number;
  lastUpdated : Z
}.

Definition get (f : field) (s : t) : Js.value :=
  match f with
  | HomeTeam => Js.VString (homeTeam s)
  | AwayTeam => Js.VString (awayTeam s)
  | HomeScore => Js.VInt (homeScore s)
  | AwayScore => Js.VInt (awayScore s)
  | HomeOdds => Js.VNumber (homeOdds s)
  | AwayOdds => Js.VNumber (awayOdds s)
  | DrawOdds => Js.VNumber (drawOdds s)
  end.

End GameState.

(** The object [calculateDelta] returns.  [id] and [lastUpdated] are always
    there; every other property may be missing.  The front end's
    [interface GameDelta] declares the five numeric properties only, but on
    a cache miss the relay sends the full state object, which also carries
    the team names. *)
Module GameDelta.

Record t := mk {
  id : string;
  lastUpdated : Z;
  homeTeam : option string;
  awayTeam : option string;
  homeScore : option Z;
  awayScore : option Z;
  homeOdds : option Js.number;
  awayOdds : option Js.number;
  drawOdds : option Js.number
}.

Definition get (f : field) (d : t) : option Js.value :=
  match f with
  | HomeTeam => Js.VString <$> homeTeam d
  | AwayTeam => Js.VString <$> awayTeam d
  | HomeScore => Js.VInt <$> homeScore d
  | AwayScore => Js.VInt <$> awayScore d
  | HomeOdds => Js.VNumber <$> homeOdds d
  | AwayOdds => Js.VNumber <$> awayOdds d
  | DrawOdds => Js.VNumber <$> drawOdds d
  end.

(** A full state object read as a delta: every property is present. *)
Definition of_state (s : GameState.t) : t :=
  {| id := GameState.id s;
     lastUpdated := GameState.lastUpdated s;
     homeTeam := Some (GameState.homeTeam s);
     awayTeam := Some (GameState.awayTeam s);
     homeScore := Some (GameState.homeScore s);
     awayScore := Some (GameState.awayScore s);
     homeOdds := Some (GameState.homeOdds s);
     awayOdds := Some (GameState.awayOdds s);
     drawOdds := Some (GameState.drawOdds s) |}.

End GameDelta.

(** ** The relay *)

Module Relay.

(** [if (a !== b) delta.f = a] *)
Definition changed {A} (eqb : A → A → bool) (a b : A) : option A :=
  if eqb a b then None else Some a.

(** [function calculateDelta(fullState, previousState)] *)
Definition calculateDelta (fullState : GameState.t)
    (previousState : option GameState.t) : GameDelta.t :=
  match previousState with
  | None => GameDelta.of_state fullState
  | Some previousState =>
      {| GameDelta.id := GameState.id fullState;
         GameDelta.lastUpdated := GameState.lastUpdated fullState;
         GameDelta.homeTeam := None;
         GameDelta.awayTeam := None;
         GameDelta.homeOdds :=
           changed Js.strict_eq_number (GameState.homeOdds fullState)
             (GameState.homeOdds previousState);
         GameDelta.awayOdds :=
           changed Js.strict_eq_number (GameState.awayOdds fullState)
             (GameState.awayOdds previousState);
         GameDelta.drawOdds :=
           changed Js.strict_eq_number (GameState.drawOdds fullState)
             (GameState.drawOdds previousState);
         GameDelta.homeScore :=
           changed Js.strict_eq_int (GameState.homeScore fullState)
             (GameState.homeScore previousState);
         GameDelta.awayScore :=
           changed Js.strict_eq_int (GameState.awayScore fullState)
             (GameState.awayScore previousState) |}
  end.

(** *** The Redis client, as the relay uses it

    Only [GET] and [SETEX] are issued.  An entry is a value with the
    instant (in seconds) at which it expires; a key whose entry has expired
    reads as absent.  The relay stores [JSON.stringify(fullGameState)] and
    reads it back with [JSON.parse]; the store below holds the decoded
    snapshot, which is the snapshot written when its numbers are ones that
    JSON text preserves ([json_odds] below). *)
Module Redis.

Abbreviation store := (gmap string (GameState.t * Z)).

(** [GET key] at instant [now]: the reply, and the store afterwards. *)
Definition GET (now : Z) (key : string) (db : store)
    : option GameState.t * store :=
  (match db !! key with
   | Some (v, expires) => if now <? expires then Some v else None
   | None => None
   end, db).

(** [SETEX key seconds value] at instant [now]. *)
Definition SETEX (now : Z) (key : string) (seconds : Z)
    (v : GameState.t) (db : store) : store :=
  <[key := (v, now + seconds)]> db.

(** How the client behaves during one run of the handler: the instant at
    which its commands are served, and whether each promise is fulfilled
    or rejected. *)
Record conn := {
  now : Z;
  get_fulfilled : bool;
  setEx_fulfilled : bool
}.

Definition healthy (t : Z) : conn :=
  {| now := t; get_fulfilled := true; setEx_fulfilled := true |}.

End Redis.

(** What the server sends to sockets. *)
Inductive server_event :=
| Delta (delta : GameDelta.t)
| Error (message : string)
| Subscribed (gameIds : list string).

(** One [emit]: the sockets it is delivered to, and the event. *)
Record emission := { recipients : gset string; emitted : server_event }.

Record stats_t := {
  connectedClients : Z;
  messagesReceived : Z;
  messagesBroadcast : Z
}.

(** The module-level variables of the relay, the Redis contents, and the
    parts of Socket.IO it relies on: the connected sockets, the rooms
    ([socket.join] / [socket.leave] / [io.to(room)]) and what was
    emitted.  [errors] collects the [console.error] lines. *)
Record state := {
  redis : Redis.store;
  sockets : gset string;
  rooms : gmap string (gset string);
  socketSubscriptions : gmap string (gset string);
  stats : stats_t;
  sent : list emission;
  errors : list string
}.

Definition init : state :=
  {| redis := ∅; sockets := ∅; rooms := ∅; socketSubscriptions := ∅;
     stats := {| connectedClients := 0; messagesReceived := 0;
                 messagesBroadcast := 0 |};
     sent := []; errors := [] |}.

(** *** A state monad with exceptions for the handlers

    A [Throw] keeps the state as it was when the exception was raised. *)
Inductive result (A : Type) :=
| Ok (a : A)
| Throw (e : string).
Arguments Ok {A} a.
Arguments Throw {A} e.

Definition M (A : Type) : Type := state → result A * state.

Definition ret {A} (a : A) : M A := λ st, (Ok a, st).

Definition bind {A B} (m : M A) (k : A → M B) : M B :=
  λ st, match m st with
        | (Ok a, st') => k a st'
        | (Throw e, st') => (Throw e, st')
        end.

Definition throw {A} (e : string) : M A := λ st, (Throw e, st).

Definition modify (f : state → state) : M unit := λ st, (Ok tt, f st).

(** [try { body } catch (error) { handler(error) }] *)
Definition try_catch (body : M unit) (handler : string → M unit) : M unit :=
  λ st, match body st with
        | (Ok tt, st') => (Ok tt, st')
        | (Throw e, st') => handler e st'
        end.

Notation "'let!' x ':=' m 'in' k" := (bind m (λ x, k))
  (at level 10, x name, m at level 100, k at level 200).
Notation "m >> k" := (bind m (λ _, k))
  (at level 90, right associativity).

(** [list.forEach(f)] *)
Fixpoint forEach {A} (f : A → M unit) (l : list A) : M unit :=
  match l with
  | [] => ret tt
  | x :: l' => f x >> forEach f l'
  end.

Definition set_redis (db : Redis.store) (st : state) : state :=
  {| redis := db; sockets := sockets st; rooms := rooms st;
     socketSubscriptions := socketSubscriptions st; stats := stats st;
     sent := sent st; errors := errors st |}.

Definition set_sockets (s : gset string) (st : state) : state :=
  {| redis := redis st; sockets := s; rooms := rooms st;
     socketSubscriptions := socketSubscriptions st; stats := stats st;
     sent := sent st; errors := errors st |}.

Definition set_rooms (r : gmap string (gset string)) (st : state) : state :=
  {| redis := redis st; sockets := sockets st; rooms := r;
     socketSubscriptions := socketSubscriptions st; stats := stats st;
     sent := sent st; errors := errors st |}.

Definition set_socketSubscriptions (m : gmap string (gset string))
    (st : state) : state :=
  {| redis := redis st; sockets := sockets st; rooms := rooms st;
     socketSubscriptions := m; stats := stats st;
     sent := sent st; errors := errors st |}.

Definition set_stats (s : stats_t) (st : state) : state :=
  {| redis := redis st; sockets := sockets st; rooms := rooms st;
     socketSubscriptions := socketSubscriptions st; stats := s;
     sent := sent st; errors := errors st |}.

Definition push_sent (e : emission) (st : state) : state :=
  {| redis := redis st; sockets := sockets st; rooms := rooms st;
     socketSubscriptions := socketSubscriptions st; stats := stats st;
     sent := sent st ++ [e]; errors := errors st |}.

Definition push_error (line : string) (st : state) : state :=
  {| redis := redis st; sockets := sockets st; rooms := rooms st;
     socketSubscriptions := socketSubscriptions st; stats := stats st;
     sent := sent st; errors := errors st ++ [line] |}.

Definition bump_messagesReceived (st : state) : state :=
  set_stats {| connectedClients := connectedClients (stats st);
               messagesReceived := messagesReceived (stats st) + 1;
               messagesBroadcast := messagesBroadcast (stats st) |} st.

Definition bump_messagesBroadcast (st : state) : state :=
  set_stats {| connectedClients := connectedClients (stats st);
               messagesReceived := messagesReceived (stats st);
               messagesBroadcast := messagesBroadcast (stats st) + 1 |} st.

Definition add_connectedClients (n : Z) (st : state) : state :=
  set_stats {| connectedClients := connectedClients (stats st) + n;
               messagesReceived := messagesReceived (stats st);
               messagesBroadcast := messagesBroadcast (stats st) |} st.

(** *** The publication handler *)

(** A message received on a channel: either the JSON text of a game state
    or something [JSON.parse] rejects. *)
Inductive payload :=
| Garbled (raw : string)
| Encoded (s : GameState.t).

Definition JSON_parse (message : payload) : M GameState.t :=
  match message with
  | Encoded s => ret s
  | Garbled _ => throw "SyntaxError: Unexpected token"
  end.

(** [await redisClient.get(key)] *)
Definition redisClient_get (c : Redis.conn) (key : string)
    : M (option GameState.t) :=
  if Redis.get_fulfilled c then
    λ st, let '(reply, db) := Redis.GET (Redis.now c) key (redis st) in
          (Ok reply, set_redis db st)
  else throw "Error: GET rejected".

(** [await redisClient.setEx(key, seconds, value)] *)
Definition redisClient_setEx (c : Redis.conn) (key : string) (seconds : Z)
    (v : GameState.t) : M unit :=
  if Redis.setEx_fulfilled c then
    modify (λ st, set_redis (Redis.SETEX (Redis.now c) key seconds v (redis st)) st)
  else throw "Error: SETEX rejected".

Definition room_members (room : string) (st : state) : gset string :=
  default ∅ (rooms st !! room).

(** [io.to(room).emit(...)] *)
Definition io_to_emit (room : string) (ev : server_event) : M unit :=
  modify (λ st, push_sent {| recipients := room_members room st; emitted := ev |} st).

(** [socket.emit(...)] *)
Definition socket_emit (sid : string) (ev : server_event) : M unit :=
  modify (push_sent {| recipients := {[sid]}; emitted := ev |}).

Definition stateKey (channel : string) : string := "game:state:" +:+ channel.

(** [subscriber.subscribe(channel, async (message) => { ... })] *)
Definition on_message (c : Redis.conn) (channel : string)
    (message : payload) : M unit :=
  try_catch
    (let! fullGameState := JSON_parse message in
     modify bump_messagesReceived >>
     let! previousState := redisClient_get c (stateKey channel) in
     let delta := calculateDelta fullGameState previousState in
     redisClient_setEx c (stateKey channel) 60 fullGameState >>
     io_to_emit channel (Delta delta) >>
     modify bump_messagesBroadcast)
    (λ error, modify (push_error error)).

(** *** The connection handlers

    The [getInitialState] handler answers with mock data drawn from
    [Math.random] and [Date.now] and touches none of the relay's state; it
    is modelled at the end of this module, outside the event system. *)

(** The argument a client sends with [subscribe] / [unsubscribe] /
    [getInitialState]: what Socket.IO decodes from the packet, that is a
    JSON value ([Object] is an object that is not an array) or, for a binary
    attachment, a Node [Buffer]. *)
Inductive js_arg :=
| Undefined
| Null
| Boolean (b : bool)
| Number (x : Js.number)
| String (s : string)
| Object
| Array (items : list string)
| Buffer (bytes : list Z).

Definition Array_isArray (v : js_arg) : bool :=
  match v with
  | Array _ => true
  | _ => false
  end.

Definition items_of (v : js_arg) : list string :=
  match v with
  | Array items => items
  | _ => []
  end.

(** [socket.join(room)] *)
Definition socket_join (sid room : string) : M unit :=
  modify (λ st, set_rooms (<[room := {[sid]} ∪ room_members room st]> (rooms st)) st).

(** [socket.leave(room)] *)
Definition socket_leave (sid room : string) : M unit :=
  modify (λ st, set_rooms (alter (λ members, members ∖ {[sid]}) room (rooms st)) st).

(** [subscriptions.add(gameId)], where [subscriptions] is
    [socketSubscriptions.get(socket.id)]: a [TypeError] when the map has
    no entry. *)
Definition subscriptions_add (sid gameId : string) : M unit :=
  λ st, match socketSubscriptions st !! sid with
        | Some subscriptions =>
            (Ok tt, set_socketSubscriptions
                      (<[sid := {[gameId]} ∪ subscriptions]> (socketSubscriptions st)) st)
        | None => (Throw "TypeError: Cannot read properties of undefined", st)
        end.

(** [subscriptions.delete(gameId)] *)
Definition subscriptions_delete (sid gameId : string) : M unit :=
  λ st, match socketSubscriptions st !! sid with
        | Some subscriptions =>
            (Ok tt, set_socketSubscriptions
                      (<[sid := subscriptions ∖ {[gameId]}]> (socketSubscriptions st)) st)
        | None => (Throw "TypeError: Cannot read properties of undefined", st)
        end.

(** [io.on('connection', (socket) => { ... })]: Socket.IO has registered
    the socket; the handler counts it and gives it an empty set. *)
Definition on_connection (sid : string) : M unit :=
  modify (λ st, set_sockets ({[sid]} ∪ sockets st) st) >>
  modify (add_connectedClients 1) >>
  modify (λ st, set_socketSubscriptions (<[sid := ∅]> (socketSubscriptions st)) st).

(** [socket.on('subscribe', (gameIds) => { ... })] *)
Definition on_subscribe (sid : string) (gameIds : js_arg) : M unit :=
  if negb (Array_isArray gameIds) then
    socket_emit sid (Error "gameIds must be an array")
  else
    forEach (λ gameId, socket_join sid gameId >> subscriptions_add sid gameId)
            (items_of gameIds) >>
    socket_emit sid (Subscribed (items_of gameIds)).

(** [socket.on('unsubscribe', (gameIds) => { ... })] *)
Definition on_unsubscribe (sid : string) (gameIds : js_arg) : M unit :=
  if negb (Array_isArray gameIds) then
    socket_emit sid (Error "gameIds must be an array")
  else
    forEach (λ gameId, socket_leave sid gameId >> subscriptions_delete sid gameId)
            (items_of gameIds).

(** [socket.on('disconnect', ...)]: Socket.IO has taken the socket out of
    every room and out of the connected sockets; the handler drops its
    set. *)
Definition on_disconnect (sid : string) : M unit :=
  modify (λ st, set_rooms ((λ members, members ∖ {[sid]}) <$> rooms st) st) >>
  modify (λ st, set_sockets (sockets st ∖ {[sid]}) st) >>
  modify (add_connectedClients (-1)) >>
  modify (λ st, set_socketSubscriptions (delete sid (socketSubscriptions st)) st).

(** *** The relay as an event-driven system *)

Inductive event :=
| Connection (sid : string)
| Subscribe (sid : string) (gameIds : js_arg)
| Unsubscribe (sid : string) (gameIds : js_arg)
| Disconnect (sid : string)
| Message (c : Redis.conn) (channel : string) (message : payload).

Definition handle (ev : event) : M unit :=
  match ev with
  | Connection sid => on_connection sid
  | Subscribe sid gameIds => on_subscribe sid gameIds
  | Unsubscribe sid gameIds => on_unsubscribe sid gameIds
  | Disconnect sid => on_disconnect sid
  | Message c channel message => on_message c channel message
  end.

(** What Socket.IO guarantees about the events it delivers: a connecting
    socket has a fresh id, and socket events arrive only for a connected
    socket. *)
Definition enabled (ev : event) (st : state) : bool :=
  match ev with
  | Connection sid => bool_decide (sid ∉ sockets st)
  | Subscribe sid _ | Unsubscribe sid _ | Disconnect sid =>
      bool_decide (sid ∈ sockets st)
  | Message _ _ _ => true
  end.

(** States the relay can be in: an uncaught exception ends the process, so
    only handlers that return normally lead on. *)
Inductive reachable : state → Prop :=
| reachable_init : reachable init
| reachable_step st ev st' :
    reachable st →
    enabled ev st = true →
    handle ev st = (Ok tt, st') →
    reachable st'.

(** Two snapshots of one entity: same identifier, same team names. *)
Definition same_entity (a b : GameState.t) : Prop :=
  GameState.id b = GameState.id a ∧
  GameState.homeTeam b = GameState.homeTeam a ∧
  GameState.awayTeam b = GameState.awayTeam a.

(** No odds value is the negative zero (which [===] does not tell from the
    positive one). *)
Definition plain_odds (s : GameState.t) : Prop :=
  Js.is_negative_zero (GameState.homeOdds s) = false ∧
  Js.is_negative_zero (GameState.awayOdds s) = false ∧
  Js.is_negative_zero (GameState.drawOdds s) = false.

(** The odds of a snapshot are written to JSON text and read back
    unchanged: they are finite and none is the negative zero.  The relay
    keeps the snapshot in Redis as [JSON.stringify(fullGameState)], and
    Socket.IO sends the delta as JSON text; for such a snapshot the decoded
    value is the value written, which is what [Redis.store] and [emission]
    hold. *)
Definition json_odds (s : GameState.t) : Prop :=
  Js.JSON_roundtrip (GameState.homeOdds s) = Some (GameState.homeOdds s) ∧
  Js.JSON_roundtrip (GameState.awayOdds s) = Some (GameState.awayOdds s) ∧
  Js.JSON_roundtrip (GameState.drawOdds s) = Some (GameState.drawOdds s).

(** The argument of [emit('delta', delta)] as the browser decodes it.  A
    property written [null] is there with value [null], which [??] treats
    like a missing one. *)
Definition on_the_wire (d : GameDelta.t) : GameDelta.t :=
  {| GameDelta.id := GameDelta.id d;
     GameDelta.lastUpdated := GameDelta.lastUpdated d;
     GameDelta.homeTeam := GameDelta.homeTeam d;
     GameDelta.awayTeam := GameDelta.awayTeam d;
     GameDelta.homeScore := GameDelta.homeScore d;
     GameDelta.awayScore := GameDelta.awayScore d;
     GameDelta.homeOdds := GameDelta.homeOdds d ≫= Js.JSON_roundtrip;
     GameDelta.awayOdds := GameDelta.awayOdds d ≫= Js.JSON_roundtrip;
     GameDelta.drawOdds := GameDelta.drawOdds d ≫= Js.JSON_roundtrip |}.

(** *** The publication handler as an async function

    [on_message] is one run of the listener from its first statement to its
    last.  The listener is [async]: it runs up to
    [await redisClient.get], is resumed with the reply and runs up to
    [await redisClient.setEx], and is resumed once more for the [emit].
    Nothing keeps another run, for the same channel or another, from
    starting or resuming in between.  The commands of all runs go to Redis
    over one connection and are served in the order issued, so each command
    acts on the store where its segment issues it. *)
Inductive suspended :=
| AwaitingGet (c : Redis.conn) (channel : string) (fullGameState : GameState.t)
    (reply : result (option GameState.t))
| AwaitingSetEx (channel : string) (delta : GameDelta.t) (reply : result unit).

(** From the delivery of the message to the first [await]. *)
Definition start (c : Redis.conn) (channel : string) (message : payload)
    (st : state) : option suspended * state :=
  match JSON_parse message st with
  | (Throw error, st) => (None, push_error error st)
  | (Ok fullGameState, st) =>
      let '(reply, st) :=
        redisClient_get c (stateKey channel) (bump_messagesReceived st) in
      (Some (AwaitingGet c channel fullGameState reply), st)
  end.

(** From one [await] to the next, or to the end of the listener. *)
Definition resume (k : suspended) (st : state) : option suspended * state :=
  match k with
  | AwaitingGet c channel fullGameState (Ok previousState) =>
      let delta := calculateDelta fullGameState previousState in
      let '(reply, st) := redisClient_setEx c (stateKey channel) 60 fullGameState st in
      (Some (AwaitingSetEx channel delta reply), st)
  | AwaitingSetEx channel delta (Ok _) =>
      (None, ((io_to_emit channel (Delta delta) >> modify bump_messagesBroadcast) st).2)
  | AwaitingGet _ _ _ (Throw error) | AwaitingSetEx _ _ (Throw error) =>
      (None, push_error error st)
  end.

(** A run that has ended is not resumed. *)
Definition resumed (k : option suspended) (st : state) : option suspended * state :=
  match k with
  | Some k => resume k st
  | None => (None, st)
  end.

(** A run that is resumed as soon as it is suspended, with no other run in
    between. *)
Definition uninterrupted (r : option suspended * state) : option suspended * state :=
  resumed r.1 r.2.

(** The deltas a socket has been sent, oldest first. *)
Definition deltas_to (sid : string) (out : list emission) : list GameDelta.t :=
  omap (λ e, match emitted e with
             | Delta d => if bool_decide (sid ∈ recipients e) then Some d else None
             | _ => None
             end) out.

(** Publications on one channel processed one at a time: the run of the
    listener for a publication has ended before the next publication is
    delivered.  Each is served by a healthy Redis client at its own
    instant. *)
Fixpoint publish (channel : string) (pubs : list (Z * GameState.t))
    (st : state) : state :=
  match pubs with
  | [] => st
  | (t, s) :: pubs' =>
      publish channel pubs' (on_message (Redis.healthy t) channel (Encoded s) st).2
  end.

(** The deltas socket [sid] is sent while [pubs] are processed. *)
Definition relayed (sid channel : string) (pubs : list (Z * GameState.t))
    (st : state) : list GameDelta.t :=
  deltas_to sid (drop (length (sent st)) (sent (publish channel pubs st))).

(** *** The initial-state handler

    [socket.on('getInitialState', async (gameIds, callback) => { ... })].
    For the game at index [i] the handler evaluates
    [Math.floor(Math.random() * 3)] twice and [Date.now()] once; these three
    values are given by [oracle i]. *)
Record draws := {
  homeDraw : Z;
  awayDraw : Z;
  clock : Z
}.

Definition mock_homeOdds : Js.number := Js.double 5 (-1).
Definition mock_awayOdds : Js.number := Js.double 6305039478318694 (-51).
Definition mock_drawOdds : Js.number := Js.double 7205759403792794 (-51).

Definition mock_state (gameId : string) (d : draws) : GameState.t :=
  {| GameState.id := gameId;
     GameState.homeTeam :=
       if String.eqb gameId "game1" then "Arsenal"
       else if String.eqb gameId "game2" then "Liverpool" else "Barcelona";
     GameState.awayTeam :=
       if String.eqb gameId "game1" then "Chelsea"
       else if String.eqb gameId "game2" then "Man United" else "Real Madrid";
     GameState.homeScore := homeDraw d;
     GameState.awayScore := awayDraw d;
     GameState.homeOdds := mock_homeOdds;
     GameState.awayOdds := mock_awayOdds;
     GameState.drawOdds := mock_drawOdds;
     GameState.lastUpdated := clock d |}.

(** What the handler passes to [callback], the acknowledgement function
    the client sent along. *)
Inductive ack :=
| Success (data : list GameState.t)
| SuccessBytes (data : list Z)
| Failure (error : string).

(** The handler does not test [Array.isArray]: it calls [gameIds.map].
    That throws a [TypeError] when [gameIds] has no [map], which the
    handler's [catch] turns into a failure reply.  A [Buffer] has the [map]
    of typed arrays, which stores each result converted to a byte; the
    result here is an object, whose conversion is [NaN], stored as [0]. *)
Definition getInitialState (gameIds : js_arg) (oracle : nat → draws) : ack :=
  match gameIds with
  | Array items => Success (imap (λ i gameId, mock_state gameId (oracle i)) items)
  | Buffer bytes => SuccessBytes ((λ _, 0) <$> bytes)
  | Undefined => Failure "Cannot read properties of undefined (reading 'map')"
  | Null => Failure "Cannot read properties of null (reading 'map')"
  | Boolean _ | Number _ | String _ | Object => Failure "gameIds.map is not a function"
  end.

(** The number of [delta] events emitted. *)
Definition broadcasts (out : list emission) : Z :=
  Z.of_nat (length (omap (λ e, match emitted e with
                               | Delta d => Some d
                               | _ => None
                               end) out)).

End Relay.

(** ** Reconciliation on the client

    Both front-end pages keep [games : Record<string, GameState>] and an
    update counter in React state, and both define the same [applyDelta].
    In [Client], [games] is read as a finite map from its own property
    names, the game identifiers, to games.  [GamesObject] below has the
    object as JavaScript has it, with its prototype; the two agree as long
    as no identifier is the name of a property of [Object.prototype]
    ([patch_refines], [gamesMap_refines]). *)

Module Client.

Record view := {
  games : gmap string GameState.t;
  updateCount : Z
}.

(** [a ?? b] where [a] may be missing. *)
Definition nullish {A} (a : option A) (b : A) : A :=
  match a with
  | Some x => x
  | None => b
  end.

(** The updater passed to [setGames] by [applyDelta]. *)
Definition patch (delta : GameDelta.t) (prevGames : gmap string GameState.t)
    : gmap string GameState.t :=
  match prevGames !! GameDelta.id delta with
  | None => prevGames
  | Some game =>
      <[GameDelta.id delta :=
          {| GameState.id := GameState.id game;
             GameState.homeTeam := GameState.homeTeam game;
             GameState.awayTeam := GameState.awayTeam game;
             GameState.homeOdds :=
               nullish (GameDelta.homeOdds delta) (GameState.homeOdds game);
             GameState.awayOdds :=
               nullish (GameDelta.awayOdds delta) (GameState.awayOdds game);
             GameState.drawOdds :=
               nullish (GameDelta.drawOdds delta) (GameState.drawOdds game);
             GameState.homeScore :=
               nullish (GameDelta.homeScore delta) (GameState.homeScore game);
             GameState.awayScore :=
               nullish (GameDelta.awayScore delta) (GameState.awayScore game);
             GameState.lastUpdated := GameDelta.lastUpdated delta |}]>
        prevGames
  end.

(** [const applyDelta = useCallback((delta: GameDelta) => { ... }, [])] *)
Definition applyDelta (delta : GameDelta.t) (v : view) : view :=
  {| updateCount := updateCount v + 1;
     games := patch delta (games v) |}.

(** Deltas applied in the order received. *)
Definition applyAll (deltas : list GameDelta.t) (v : view) : view :=
  foldl (λ v delta, applyDelta delta v) v deltas.

(** [initialGames.forEach((game) => { gamesMap[game.id] = game; })] *)
Definition gamesMap (initialGames : list GameState.t) : gmap string GameState.t :=
  foldl (λ m game, <[GameState.id game := game]> m) ∅ initialGames.

Definition setGames (g : gmap string GameState.t) (v : view) : view :=
  {| updateCount := updateCount v; games := g |}.

End Client.

(** ** The [games] object with its prototype

    [prevGames[delta.id]] and [gamesMap[game.id] = game] are property
    accesses on a plain object: the read falls back on the prototype chain
    when the object has no own property of that name, and the write of
    [__proto__] goes to the setter inherited from [Object.prototype], which
    replaces the prototype. *)

Module GamesObject.

(** The names of the properties of [Object.prototype].  All are functions
    but [__proto__], an accessor for the prototype. *)
Definition prototype_names : list string :=
  ["constructor"; "__defineGetter__"; "__defineSetter__"; "hasOwnProperty";
   "__lookupGetter__"; "__lookupSetter__"; "isPrototypeOf";
   "propertyIsEnumerable"; "toString"; "valueOf"; "__proto__";
   "toLocaleString"].

(** The object [applyDelta] builds when what it spreads is not a game: the
    own enumerable properties of the spread value (the characters of a
    string, under their indices; nothing for a function, a number or
    [Object.prototype]), the five numeric properties, [undefined] ([None])
    unless the delta or the spread value has them, and [lastUpdated]. *)
Record remnant := {
  characters : string;
  homeOdds : option Js.number;
  awayOdds : option Js.number;
  drawOdds : option Js.number;
  homeScore : option Z;
  awayScore : option Z;
  lastUpdated : Z
}.

(** The value of an own property of [games]. *)
Inductive entry :=
| Game (game : GameState.t)
| Remnant (r : remnant).

(** [proto] is [None] for [Object.prototype], the prototype of an object
    literal, and [Some game] once [__proto__] has been assigned [game]. *)
Record t := {
  own : gmap string entry;
  proto : option GameState.t
}.

(** What a property read evaluates to. *)
Inductive value :=
| Undefined
| Stored (e : entry)
| BuiltinFunction
| ObjectPrototype
| String (s : string)
| Number (x : Js.number)
| Integer (z : Z).

(** The own properties of a game object. *)
Definition game_property (game : GameState.t) (key : string) : option value :=
  if String.eqb key "id" then Some (String (GameState.id game))
  else if String.eqb key "homeTeam" then Some (String (GameState.homeTeam game))
  else if String.eqb key "awayTeam" then Some (String (GameState.awayTeam game))
  else if String.eqb key "homeScore" then Some (Integer (GameState.homeScore game))
  else if String.eqb key "awayScore" then Some (Integer (GameState.awayScore game))
  else if String.eqb key "homeOdds" then Some (Number (GameState.homeOdds game))
  else if String.eqb key "awayOdds" then Some (Number (GameState.awayOdds game))
  else if String.eqb key "drawOdds" then Some (Number (GameState.drawOdds game))
  else if String.eqb key "lastUpdated" then Some (Integer (GameState.lastUpdated game))
  else None.

(** [Object.prototype[key]], for a key other than [__proto__]. *)
Definition inherited (key : string) : value :=
  if bool_decide (key ∈ prototype_names) then BuiltinFunction else Undefined.

(** [games[key]] *)
Definition get (games : t) (key : string) : value :=
  match own games !! key with
  | Some e => Stored e
  | None =>
      match proto games with
      | None =>
          if String.eqb key "__proto__" then ObjectPrototype else inherited key
      | Some game =>
          if String.eqb key "__proto__" then Stored (Game game)
          else default (inherited key) (game_property game key)
      end
  end.

(** [!v] is false. *)
Definition truthy (v : value) : bool :=
  match v with
  | Undefined => false
  | Stored _ | BuiltinFunction | ObjectPrototype => true
  | String s => negb (String.eqb s "")
  | Number x => Js.truthy_number x
  | Integer z => negb (z =? 0)
  end.

(** [a ?? b] where both may be [undefined]. *)
Definition nullish {A} (a b : option A) : option A :=
  match a with
  | Some x => Some x
  | None => b
  end.

Definition patch_remnant (chars : string) (delta : GameDelta.t)
    (homeOdds awayOdds drawOdds : option Js.number)
    (homeScore awayScore : option Z) : remnant :=
  {| characters := chars;
     homeOdds := nullish (GameDelta.homeOdds delta) homeOdds;
     awayOdds := nullish (GameDelta.awayOdds delta) awayOdds;
     drawOdds := nullish (GameDelta.drawOdds delta) drawOdds;
     homeScore := nullish (GameDelta.homeScore delta) homeScore;
     awayScore := nullish (GameDelta.awayScore delta) awayScore;
     lastUpdated := GameDelta.lastUpdated delta |}.

(** [{...game, homeOdds: delta.homeOdds ?? game.homeOdds, ...,
    lastUpdated: delta.lastUpdated}] for a truthy [game]. *)
Definition patched (game : value) (delta : GameDelta.t) : entry :=
  match game with
  | Stored (Game game) =>
      Game {| GameState.id := GameState.id game;
              GameState.homeTeam := GameState.homeTeam game;
              GameState.awayTeam := GameState.awayTeam game;
              GameState.homeOdds :=
                Client.nullish (GameDelta.homeOdds delta) (GameState.homeOdds game);
              GameState.awayOdds :=
                Client.nullish (GameDelta.awayOdds delta) (GameState.awayOdds game);
              GameState.drawOdds :=
                Client.nullish (GameDelta.drawOdds delta) (GameState.drawOdds game);
              GameState.homeScore :=
                Client.nullish (GameDelta.homeScore delta) (GameState.homeScore game);
              GameState.awayScore :=
                Client.nullish (GameDelta.awayScore delta) (GameState.awayScore game);
              GameState.lastUpdated := GameDelta.lastUpdated delta |}
  | Stored (Remnant r) =>
      Remnant (patch_remnant (characters r) delta (homeOdds r) (awayOdds r)
                 (drawOdds r) (homeScore r) (awayScore r))
  | String s => Remnant (patch_remnant s delta None None None None None)
  | Undefined | BuiltinFunction | ObjectPrototype | Number _ | Integer _ =>
      Remnant (patch_remnant "" delta None None None None None)
  end.

(** The updater passed to [setGames] by [applyDelta].  The object literal
    it returns has the own properties of [prevGames] and
    [Object.prototype] for prototype; the computed key defines an own
    property also when it is [__proto__]. *)
Definition patch (delta : GameDelta.t) (prevGames : t) : t :=
  let game := get prevGames (GameDelta.id delta) in
  if negb (truthy game) then prevGames
  else {| own := <[GameDelta.id delta := patched game delta]> (own prevGames);
          proto := None |}.

(** Deltas applied in the order received. *)
Definition patchAll (deltas : list GameDelta.t) (games : t) : t :=
  foldl (λ games delta, patch delta games) games deltas.

(** [const gamesMap = {}] *)
Definition empty : t := {| own := ∅; proto := None |}.

(** [gamesMap[game.id] = game] *)
Definition assign (gamesMap : t) (game : GameState.t) : t :=
  if String.eqb (GameState.id game) "__proto__"
  then {| own := own gamesMap; proto := Some game |}
  else {| own := <[GameState.id game := Game game]> (own gamesMap);
          proto := proto gamesMap |}.

(** [initialGames.forEach((game) => { gamesMap[game.id] = game; })] *)
Definition gamesMap (initialGames : list GameState.t) : t :=
  foldl assign empty initialGames.

(** The updater of [handleUnsubscribe]:
    [const newGames = { ...prev }; delete newGames[gameId]]. *)
Definition without (gameId : string) (prev : t) : t :=
  {| own := delete gameId (own prev); proto := None |}.

(** The object whose own properties are the games of a finite map. *)
Definition of_games (games : gmap string GameState.t) : t :=
  {| own := Game <$> games; proto := None |}.

(** The identifier is none of the names a [games] object inherits. *)
Definition ordinary (key : string) : Prop := key ∉ prototype_names.

End GamesObject.

(** ** The raw-WebSocket page: transport manager

    The component's React state and refs, and its callbacks as functions
    from the state to the next state and the effects issued.  A timer ref
    is [Some delay] while the timer is pending; [ClearTimeoutPoll] and
    [ClearTimeoutConnect] are cancellations of a pending timer, and a
    [clearTimeout] of a timer that has fired, which does nothing, is left
    out.

    [connect] and [startPolling] are [useCallback]s that depend on
    [subscribedGames]: a socket's handlers, a reconnect timer and a poll
    loop read the set of the render that made them.  [onopen_of] has the
    captured set as a parameter.  The event system below follows the one
    socket held by [wsRef] and reads the current set, as the component
    does in the sessions where the subscription set does not change: there
    sockets follow one another and every closure holds the set of the
    mount. *)

Module WsPage.

Inductive ConnectionType := websocket | polling | disconnected.

Inductive readyState := CONNECTING | OPEN | CLOSING | CLOSED.

Record t := {
  view : Client.view;
  connectionType : ConnectionType;
  subscribedGames : list string;
  wsRef : option readyState;
  pollingRef : bool;
  pollingTimeoutRef : option Z;
  reconnectTimeoutRef : option Z;
  reconnectAttemptsRef : Z;
  pollingFailuresRef : Z
}.

Definition set_view (x : Client.view) (st : t) : t :=
  {| view := x;
     connectionType := connectionType st;
     subscribedGames := subscribedGames st;
     wsRef := wsRef st;
     pollingRef := pollingRef st;
     pollingTimeoutRef := pollingTimeoutRef st;
     reconnectTimeoutRef := reconnectTimeoutRef st;
     reconnectAttemptsRef := reconnectAttemptsRef st;
     pollingFailuresRef := pollingFailuresRef st |}.

Definition set_connectionType (x : ConnectionType) (st : t) : t :=
  {| view := view st;
     connectionType := x;
     subscribedGames := subscribedGames st;
     wsRef := wsRef st;
     pollingRef := pollingRef st;
     pollingTimeoutRef := pollingTimeoutRef st;
     reconnectTimeoutRef := reconnectTimeoutRef st;
     reconnectAttemptsRef := reconnectAttemptsRef st;
     pollingFailuresRef := pollingFailuresRef st |}.

Definition set_subscribedGames (x : list string) (st : t) : t :=
  {| view := view st;
     connectionType := connectionType st;
     subscribedGames := x;
     wsRef := wsRef st;
     pollingRef := pollingRef st;
     pollingTimeoutRef := pollingTimeoutRef st;
     reconnectTimeoutRef := reconnectTimeoutRef st;
     reconnectAttemptsRef := reconnectAttemptsRef st;
     pollingFailuresRef := pollingFailuresRef st |}.

Definition set_wsRef (x : option readyState) (st : t) : t :=
  {| view := view st;
     connectionType := connectionType st;
     subscribedGames := subscribedGames st;
     wsRef := x;
     pollingRef := pollingRef st;
     pollingTimeoutRef := pollingTimeoutRef st;
     reconnectTimeoutRef := reconnectTimeoutRef st;
     reconnectAttemptsRef := reconnectAttemptsRef st;
     pollingFailuresRef := pollingFailuresRef st |}.

Definition set_pollingRef (x : bool) (st : t) : t :=
  {| view := view st;
     connectionType := connectionType st;
     subscribedGames := subscribedGames st;
     wsRef := wsRef st;
     pollingRef := x;
     pollingTimeoutRef := pollingTimeoutRef st;
     reconnectTimeoutRef := reconnectTimeoutRef st;
     reconnectAttemptsRef := reconnectAttemptsRef st;
     pollingFailuresRef := pollingFailuresRef st |}.

Definition set_pollingTimeoutRef (x : option Z) (st : t) : t :=
  {| view := view st;
     connectionType := connectionType st;
     subscribedGames := subscribedGames st;
     wsRef := wsRef st;
     pollingRef := pollingRef st;
     pollingTimeoutRef := x;
     reconnectTimeoutRef := reconnectTimeoutRef st;
     reconnectAttemptsRef := reconnectAttemptsRef st;
     pollingFailuresRef := pollingFailuresRef st |}.

Definition set_reconnectTimeoutRef (x : option Z) (st : t) : t :=
  {| view := view st;
     connectionType := connectionType st;
     subscribedGames := subscribedGames st;
     wsRef := wsRef st;
     pollingRef := pollingRef st;
     pollingTimeoutRef := pollingTimeoutRef st;
     reconnectTimeoutRef := x;
     reconnectAttemptsRef := reconnectAttemptsRef st;
     pollingFailuresRef := pollingFailuresRef st |}.

Definition set_reconnectAttemptsRef (x : Z) (st : t) : t :=
  {| view := view st;
     connectionType := connectionType st;
     subscribedGames := subscribedGames st;
     wsRef := wsRef st;
     pollingRef := pollingRef st;
     pollingTimeoutRef := pollingTimeoutRef st;
     reconnectTimeoutRef := reconnectTimeoutRef st;
     reconnectAttemptsRef := x;
     pollingFailuresRef := pollingFailuresRef st |}.

Definition set_pollingFailuresRef (x : Z) (st : t) : t :=
  {| view := view st;
     connectionType := connectionType st;
     subscribedGames := subscribedGames st;
     wsRef := wsRef st;
     pollingRef := pollingRef st;
     pollingTimeoutRef := pollingTimeoutRef st;
     reconnectTimeoutRef := reconnectTimeoutRef st;
     reconnectAttemptsRef := reconnectAttemptsRef st;
     pollingFailuresRef := x |}.

Inductive client_message :=
| subscribe (gameIds : list string)
| unsubscribe (gameIds : list string).

(** Effects on the outside world. *)
Inductive action :=
| NewWebSocket
| Send (m : client_message)
| CloseWebSocket
| FetchState (gameIds : list string)
| FetchPoll (gameIds : list string)
| SetTimeoutPoll (delay : Z)
| SetTimeoutConnect (delay : Z)
| ClearTimeoutPoll
| ClearTimeoutConnect.

Definition cmd : Type := t → t * list action.

Definition skip : cmd := λ st, (st, []).

Definition seq (c1 c2 : cmd) : cmd :=
  λ st, let '(st1, a1) := c1 st in
        let '(st2, a2) := c2 st1 in
        (st2, a1 ++ a2).

Definition update (f : t → t) : cmd := λ st, (f st, []).

Definition emit (a : action) : cmd := λ st, (st, [a]).

Notation "c1 >> c2" := (seq c1 c2) (at level 90, right associativity).

Fixpoint forEach {A} (f : A → cmd) (l : list A) : cmd :=
  match l with
  | [] => skip
  | x :: l' => f x >> forEach f l'
  end.

(** [new Set(prev).add(gameId)] and [.delete(gameId)], in insertion
    order. *)
Definition Set_add (gameId : string) (s : list string) : list string :=
  if bool_decide (gameId ∈ s) then s else s ++ [gameId].

Definition Set_delete (gameId : string) (s : list string) : list string :=
  filter (λ g, g ≠ gameId) s.

Definition applyDelta (delta : GameDelta.t) : cmd :=
  update (λ st, set_view (Client.applyDelta delta (view st)) st).

Definition setGames (g : gmap string GameState.t) : cmd :=
  update (λ st, set_view (Client.setGames g (view st)) st).

(** The inner [poll] of [startPolling], up to its [await fetch]. *)
Definition poll : cmd :=
  λ st, if pollingRef st then (st, [FetchPoll (subscribedGames st)])
        else (st, []).

(** How the awaited poll request ends. *)
Inductive poll_outcome :=
| PollOk (deltas : option (list GameDelta.t))
| PollFailed.

(** The rest of [poll] once the request has settled.  [PollOk (Some ds)]
    is an ok response whose body is a batch with deltas, [PollOk None] any
    other ok response; [PollFailed] a rejected fetch, a non-ok status or
    an unreadable body. *)
Definition poll_settled (o : poll_outcome) : cmd :=
  match o with
  | PollOk deltas =>
      match deltas with
      | Some ds => forEach applyDelta ds
      | None => skip
      end >>
      update (set_pollingFailuresRef 0) >>
      poll
  | PollFailed =>
      update (λ st, set_pollingFailuresRef (pollingFailuresRef st + 1) st) >>
      λ st, let delay := Z.min (1000 * 2 ^ pollingFailuresRef st) 30000 in
            if pollingRef st
            then (set_pollingTimeoutRef (Some delay) st, [SetTimeoutPoll delay])
            else (st, [])
  end.

(** [startPolling], up to its [await fetch] of the initial state. *)
Definition startPolling : cmd :=
  λ st, if pollingRef st then (st, [])
        else (update (set_pollingRef true) >>
              update (set_connectionType polling) >>
              λ st, (st, [FetchState (subscribedGames st)])) st.

(** The rest of [startPolling]: [Some games] is a response of type
    [initial]; then the first [poll()]. *)
Definition state_settled (r : option (list GameState.t)) : cmd :=
  match r with
  | Some initialGames => setGames (Client.gamesMap initialGames)
  | None => skip
  end >>
  poll.

Definition stopPolling : cmd :=
  update (set_pollingRef false) >>
  update (set_pollingFailuresRef 0) >>
  λ st, match pollingTimeoutRef st with
        | Some _ => (set_pollingTimeoutRef None st, [ClearTimeoutPoll])
        | None => (st, [])
        end.

(** [connect], with the handlers below installed on the new socket. *)
Definition connect : cmd :=
  λ st, match wsRef st with
        | Some OPEN => (st, [])
        | _ => (stopPolling >>
                emit NewWebSocket >>
                update (set_wsRef (Some CONNECTING))) st
        end.

(** [ws.onopen] of a socket created by a [connect] whose closure holds
    [captured] for [subscribedGames]: [connect] is a [useCallback] with
    [subscribedGames] among its dependencies, and the handlers it installs
    read the set of the render that made it. *)
Definition onopen_of (captured : list string) : cmd :=
  update (set_connectionType websocket) >>
  update (set_reconnectAttemptsRef 0) >>
  emit (Send (subscribe captured)).

(** [ws.onopen] of a socket created under the current subscription set. *)
Definition onopen : cmd := λ st, onopen_of (subscribedGames st) st.

Inductive server_message :=
| initial (data : list GameState.t)
| batch (deltas : option (list GameDelta.t))
| delta (data : GameDelta.t)
| unknown.

(** [ws.onmessage] *)
Definition onmessage (m : server_message) : cmd :=
  match m with
  | initial initialGames => setGames (Client.gamesMap initialGames)
  | batch (Some deltas) => forEach applyDelta deltas
  | batch None => skip
  | delta d => applyDelta d
  | unknown => skip
  end.

(** [ws.onerror] *)
Definition onerror : cmd := update (set_connectionType disconnected).

(** [ws.onclose] *)
Definition onclose : cmd :=
  update (set_connectionType disconnected) >>
  update (set_wsRef None) >>
  update (λ st, set_reconnectAttemptsRef (reconnectAttemptsRef st + 1) st) >>
  λ st, if 3 <=? reconnectAttemptsRef st
        then startPolling st
        else let delay := Z.min (1000 * 2 ^ reconnectAttemptsRef st) 5000 in
             (set_reconnectTimeoutRef (Some delay) st, [SetTimeoutConnect delay]).

(** The clean-up function of the effect. *)
Definition cleanup : cmd :=
  (λ st, match reconnectTimeoutRef st with
         | Some _ => (set_reconnectTimeoutRef None st, [ClearTimeoutConnect])
         | None => (st, [])
         end) >>
  (λ st, match wsRef st with
         | Some _ => (set_wsRef (Some CLOSING) st, [CloseWebSocket])
         | None => (st, [])
         end) >>
  stopPolling.

(** [handleSubscribe] and [handleUnsubscribe].  The new [Set] given to
    [setSubscribedGames] changes [connect], a dependency of the effect, so
    after the handler the effect is cleaned up and run again.
    [handleUnsubscribe] is the click handler of every game card;
    [handleSubscribe] is defined but bound to no control. *)
Definition sendIfOpen (m : client_message) : cmd :=
  λ st, match wsRef st with
        | Some OPEN => (st, [Send m])
        | _ => (st, [])
        end.

Definition handleSubscribe (gameId : string) : cmd :=
  update (λ st, set_subscribedGames (Set_add gameId (subscribedGames st)) st) >>
  sendIfOpen (subscribe [gameId]).

Definition handleUnsubscribe (gameId : string) : cmd :=
  update (λ st, set_subscribedGames (Set_delete gameId (subscribedGames st)) st) >>
  sendIfOpen (unsubscribe [gameId]) >>
  update (λ st, set_view (Client.setGames (delete gameId (Client.games (view st)))
                                          (view st)) st).

Definition rerun_effect : cmd := cleanup >> connect.

(** *** The session as an event-driven system *)

Inductive event :=
| Onopen
| Onmessage (m : server_message)
| Onerror
| Onclose
| ReconnectTimeout
| StateSettled (r : option (list GameState.t))
| PollSettled (o : poll_outcome)
| PollTimeout
| Unsubscribe (gameId : string).

Definition step (ev : event) : cmd :=
  match ev with
  | Onopen => update (set_wsRef (Some OPEN)) >> onopen
  | Onmessage m => onmessage m
  | Onerror => onerror
  | Onclose => onclose
  | ReconnectTimeout => update (set_reconnectTimeoutRef None) >> connect
  | StateSettled r => state_settled r
  | PollSettled o => poll_settled o
  | PollTimeout => update (set_pollingTimeoutRef None) >> poll
  | Unsubscribe gameId => handleUnsubscribe gameId >> rerun_effect
  end.

(** When an event can occur: socket events come from the socket in
    [wsRef], in an order its [readyState] allows; a timer fires only while
    pending; the Unsubscribe button exists on the card of a displayed game.
    A settled request is allowed at any time. *)
Definition enabled (ev : event) (st : t) : bool :=
  match ev with
  | Onopen => match wsRef st with Some CONNECTING => true | _ => false end
  | Onmessage _ => match wsRef st with Some OPEN => true | _ => false end
  | Onerror | Onclose => bool_decide (is_Some (wsRef st))
  | ReconnectTimeout => bool_decide (is_Some (reconnectTimeoutRef st))
  | PollTimeout => bool_decide (is_Some (pollingTimeoutRef st))
  | StateSettled _ | PollSettled _ => true
  | Unsubscribe gameId => bool_decide (is_Some (Client.games (view st) !! gameId))
  end.

(** Events of the transports themselves, as opposed to the user changing
    the subscription set. *)
Definition transport (ev : event) : bool :=
  match ev with
  | Unsubscribe _ => false
  | _ => true
  end.

Fixpoint run (evs : list event) : cmd :=
  match evs with
  | [] => skip
  | ev :: evs' => step ev >> run evs'
  end.

Fixpoint admissible (evs : list event) (st : t) : bool :=
  match evs with
  | [] => true
  | ev :: evs' => enabled ev st && admissible evs' (step ev st).1
  end.

(** The component before its effect has run, and after the first
    [connect()]. *)
Definition fresh : t :=
  {| view := {| Client.games := ∅; Client.updateCount := 0 |};
     connectionType := disconnected;
     subscribedGames := ["game1"; "game2"; "game3"];
     wsRef := None;
     pollingRef := false;
     pollingTimeoutRef := None;
     reconnectTimeoutRef := None;
     reconnectAttemptsRef := 0;
     pollingFailuresRef := 0 |}.

Definition mounted : t := (connect fresh).1.

Definition push_connect (a : action) : bool :=
  match a with
  | NewWebSocket | SetTimeoutConnect _ => true
  | _ => false
  end.

(** The delays of the poll timers set, oldest first. *)
Definition poll_delays (acts : list action) : list Z :=
  omap (λ a, match a with SetTimeoutPoll delay => Some delay | _ => None end) acts.

Definition initial_state_request (a : action) : bool :=
  match a with
  | FetchState _ => true
  | _ => false
  end.

(** The two phases of a session whose subscription set stays as it is.
    While pushing there is no poll loop, fewer than three consecutive
    failures are counted, and a pending reconnect timer and a socket
    exclude each other.  While polling there is neither a socket nor a
    reconnect timer. *)
Definition pushing (st : t) : Prop :=
  pollingRef st = false ∧
  pollingTimeoutRef st = None ∧
  reconnectAttemptsRef st < 3 ∧
  (reconnectTimeoutRef st = None ∨ wsRef st = None).

Definition polling_mode (st : t) : Prop :=
  pollingRef st = true ∧
  connectionType st = polling ∧
  wsRef st = None ∧
  reconnectTimeoutRef st = None ∧
  3 ≤ reconnectAttemptsRef st.

End WsPage.

(** ** The Socket.IO page

    [src/frontend/app/page.tsx]: the same [games] and [applyDelta], a fixed
    list of subscribed games (the state has no setter), and a socket whose
    reconnection is left to Socket.IO. *)

Module IoPage.

Record t := {
  view : Client.view;
  isConnected : bool;
  transport : string;
  subscribedGames : list string;
  socket : bool
}.

Inductive action :=
| EmitSubscribe (gameIds : list string)
| EmitGetInitialState (gameIds : list string)
| EmitUnsubscribe (gameIds : list string).

Definition set_view (v : Client.view) (st : t) : t :=
  {| view := v; isConnected := isConnected st; transport := transport st;
     subscribedGames := subscribedGames st; socket := socket st |}.

(** [socketInstance.on('connect', ...)], up to the acknowledgement of
    [getInitialState]. *)
Definition on_connect (transportName : string) (st : t) : t * list action :=
  ({| view := view st; isConnected := true; transport := transportName;
      subscribedGames := subscribedGames st; socket := socket st |},
   [EmitSubscribe (subscribedGames st);
    EmitGetInitialState (subscribedGames st)]).

(** The acknowledgement callback of [getInitialState].  Bytes reach the
    browser as an [ArrayBuffer], which has no [forEach]: the callback then
    throws before [setGames]. *)
Definition on_initialState (response : Relay.ack) (st : t) : t * list action :=
  match response with
  | Relay.Success data =>
      (set_view (Client.setGames (Client.gamesMap data) (view st)) st, [])
  | Relay.SuccessBytes _ => (st, [])
  | Relay.Failure _ => (st, [])
  end.

(** [socketInstance.on('disconnect', ...)] *)
Definition on_disconnect (st : t) : t * list action :=
  ({| view := view st; isConnected := false; transport := "disconnected";
      subscribedGames := subscribedGames st; socket := socket st |}, []).

(** [socketInstance.io.engine.on('upgrade', ...)] *)
Definition on_upgrade (transportName : string) (st : t) : t * list action :=
  ({| view := view st; isConnected := isConnected st; transport := transportName;
      subscribedGames := subscribedGames st; socket := socket st |}, []).

(** [socketInstance.on('delta', ...)] *)
Definition on_delta (delta : GameDelta.t) (st : t) : t * list action :=
  (set_view (Client.applyDelta delta (view st)) st, []).

(** [handleUnsubscribe] *)
Definition handleUnsubscribe (gameId : string) (st : t) : t * list action :=
  (set_view (Client.setGames (delete gameId (Client.games (view st))) (view st)) st,
   if socket st then [EmitUnsubscribe [gameId]] else []).

Inductive event :=
| Connect (transportName : string)
| InitialState (response : Relay.ack)
| Disconnected
| Upgrade (transportName : string)
| DeltaReceived (delta : GameDelta.t)
| Unsubscribe (gameId : string).

Definition step (ev : event) (st : t) : t * list action :=
  match ev with
  | Connect name => on_connect name st
  | InitialState response => on_initialState response st
  | Disconnected => on_disconnect st
  | Upgrade name => on_upgrade name st
  | DeltaReceived delta => on_delta delta st
  | Unsubscribe gameId => handleUnsubscribe gameId st
  end.

Fixpoint run (evs : list event) (st : t) : t :=
  match evs with
  | [] => st
  | ev :: evs' => run evs' (step ev st).1
  end.

(** The component once its effect has run and [setSocket] has taken
    effect. *)
Definition mounted : t :=
  {| view := {| Client.games := ∅; Client.updateCount := 0 |};
     isConnected := false;
     transport := "disconnected";
     subscribedGames := ["game1"; "game2"; "game3"];
     socket := true |}.

End IoPage.

(** ** The publisher

    The Go program's [initializeGames] and the loop body of
    [publishOddsUpdates].  What the body draws from [rand.Float64], the
    odds the drawn numbers lead to, the clock and the outcome of
    [rdb.Publish] are given as parameters of one visit of a game; the
    comparison with 1.01 is the code's.  [publishInitialDummyData], whose
    results are sums of doubles, is not modelled. *)

Module Publisher.

(** The constant [1.01] as a [float64]. *)
Definition threshold : Js.number := Js.double 4548635623644201 (-52).

(** [type Metrics struct] *)
Record Metrics := {
  deltasPublished : Z;
  publishErrors : Z
}.

(** [games], [metrics], and the messages Redis has accepted, oldest first,
    each with its channel. *)
Record state := {
  games : gmap string GameState.t;
  metrics : Metrics;
  published : list (string * GameState.t)
}.

(** [func initializeGames()]; [clock] gives the [time.Now().UnixMilli()]
    read for each game. *)
Definition initializeGames (clock : string → Z) : gmap string GameState.t :=
  <["game1" := GameState.mk "game1" "Arsenal" "Chelsea" 1 1
                 (Js.double 5629499534213120 (-51))
                 (Js.double 6305039478318694 (-51))
                 (Js.double 7205759403792794 (-51)) (clock "game1")]>
  (<["game2" := GameState.mk "game2" "Liverpool" "Man United" 2 0
                  (Js.double 8106479329266893 (-52))
                  (Js.double 4728779608739021 (-50))
                  (Js.double 7881299347898368 (-51)) (clock "game2")]>
   {["game3" := GameState.mk "game3" "Barcelona" "Real Madrid" 0 0
                  (Js.double 4728779608739021 (-51))
                  (Js.double 7430939385161318 (-51))
                  (Js.double 6755399441055744 (-51)) (clock "game3")]}).

(** One visit of a game by the loop body. *)
Record draws := {
  updates : bool;
  homeCandidate : option Js.number;
  awayCandidate : option Js.number;
  drawCandidate : option Js.number;
  clock : Z;
  publishOk : bool
}.

(** [if rand.Float64() < 0.6 { newOdds := ...; if newOdds > 1.01 { odds =
    newOdds } }]: the candidate is [Some newOdds] when the first draw is
    below 0.6. *)
Definition move (candidate : option Js.number) (current : Js.number) : Js.number :=
  match candidate with
  | Some newOdds => if SFltb threshold newOdds then newOdds else current
  | None => current
  end.

(** [json.Marshal] fails on a [float64] that is NaN or infinite. *)
Definition marshals (x : Js.number) : bool :=
  match x with
  | S754_zero _ | S754_finite _ _ _ => true
  | S754_infinity _ | S754_nan => false
  end.

Definition json_Marshal (game : GameState.t) : option GameState.t :=
  if marshals (GameState.homeOdds game) && marshals (GameState.awayOdds game)
     && marshals (GameState.drawOdds game)
  then Some game else None.

Definition count_error (m : Metrics) : Metrics :=
  {| deltasPublished := deltasPublished m; publishErrors := publishErrors m + 1 |}.

Definition count_published (m : Metrics) : Metrics :=
  {| deltasPublished := deltasPublished m + 1; publishErrors := publishErrors m |}.

(** The body of [for gameID, game := range games { ... }]. *)
Definition visit (gameID : string) (d : draws) (st : state) : state :=
  match games st !! gameID with
  | None => st
  | Some game =>
      if updates d then
        let game' :=
          {| GameState.id := GameState.id game;
             GameState.homeTeam := GameState.homeTeam game;
             GameState.awayTeam := GameState.awayTeam game;
             GameState.homeScore := GameState.homeScore game;
             GameState.awayScore := GameState.awayScore game;
             GameState.homeOdds := move (homeCandidate d) (GameState.homeOdds game);
             GameState.awayOdds := move (awayCandidate d) (GameState.awayOdds game);
             GameState.drawOdds := move (drawCandidate d) (GameState.drawOdds game);
             GameState.lastUpdated := clock d |} in
        let games' := <[gameID := game']> (games st) in
        match json_Marshal game' with
        | None =>
            {| games := games'; metrics := count_error (metrics st);
               published := published st |}
        | Some data =>
            if publishOk d
            then {| games := games'; metrics := count_published (metrics st);
                    published := published st ++ [(gameID, data)] |}
            else {| games := games'; metrics := count_error (metrics st);
                    published := published st |}
        end
      else st
  end.

(** Visits in the order the ticker and the map iteration produce them. *)
Fixpoint run (visits : list (string * draws)) (st : state) : state :=
  match visits with
  | [] => st
  | (gameID, d) :: visits' => run visits' (visit gameID d st)
  end.

(** All three odds are above 1.01. *)
Definition above (game : GameState.t) : bool :=
  SFltb threshold (GameState.homeOdds game)
  && SFltb threshold (GameState.awayOdds game)
  && SFltb threshold (GameState.drawOdds game).

(** The state in which [main] leaves [initializeGames]. *)
Definition start (clock : string → Z) : state :=
  {| games := initializeGames clock;
     metrics := {| deltasPublished := 0; publishErrors := 0 |};
     published := [] |}.

End Publisher.

(** The properties the relay reports on: the five numeric fields.  The team
    names are part of a snapshot but of no delta the relay computes. *)
Definition compared (f : field) : bool :=
  match f with
  | HomeTeam | AwayTeam => false
  | HomeScore | AwayScore | HomeOdds | AwayOdds | DrawOdds => true
  end.

(** ** Sample data: the publisher's first game and a relay with one
    subscriber *)

Module Sample.

Definition odds_2_3 : Js.number := Eval vm_compute in Js.double 5179139571476070 (-51).
Definition odds_2_5 : Js.number := Eval vm_compute in Js.double 5 (-1).
Definition odds_2_8 : Js.number := Eval vm_compute in Js.double 6305039478318694 (-51).
Definition odds_3_2 : Js.number := Eval vm_compute in Js.double 7205759403792794 (-51).

Definition game1 : GameState.t :=
  GameState.mk "game1" "Arsenal" "Chelsea" 1 1 odds_2_5 odds_2_8 odds_3_2 1000.

(** The next publication: the home odds and the timestamp moved. *)
Definition game1_next : GameState.t :=
  GameState.mk "game1" "Arsenal" "Chelsea" 1 1 odds_2_3 odds_2_8 odds_3_2 1200.

(** A publication that differs from [game1] in the home team's name and
    the timestamp only. *)
Definition game1_renamed : GameState.t :=
  GameState.mk "game1" "Arsenal FC" "Chelsea" 1 1 odds_2_5 odds_2_8 odds_3_2 1200.

(** A relay with socket [c1] connected and subscribed to [game1]. *)
Definition relay_c1 : Relay.state :=
  (Relay.on_subscribe "c1" (Relay.Array ["game1"])
     (Relay.on_connection "c1" Relay.init).2).2.

(** The same relay after [game1] was published at second 10. *)
Definition relay_c1_cached : Relay.state :=
  (Relay.on_message (Relay.Redis.healthy 10) "game1" (Relay.Encoded game1) relay_c1).2.

(** A later publication with the odds of [game1] again. *)
Definition game1_back : GameState.t :=
  GameState.mk "game1" "Arsenal" "Chelsea" 1 1 odds_2_5 odds_2_8 odds_3_2 1400.

(** A Redis client whose [get] is rejected. *)
Definition read_rejected (t : Z) : Relay.Redis.conn :=
  {| Relay.Redis.now := t; Relay.Redis.get_fulfilled := false;
     Relay.Redis.setEx_fulfilled := true |}.

(** A delta addressed to an identifier that is also the name of a property
    of [Object.prototype]. *)
Definition constructor_delta : GameDelta.t :=
  GameDelta.mk "constructor" 1200 None None None None (Some odds_2_3) None None.


(** The raw-WebSocket session after three connection attempts have
    failed. *)
Definition polling_session : WsPage.t :=
  {| WsPage.view := {| Client.games := ∅; Client.updateCount := 0 |};
     WsPage.connectionType := WsPage.polling;
     WsPage.subscribedGames := ["game1"; "game2"; "game3"];
     WsPage.wsRef := None;
     WsPage.pollingRef := true;
     WsPage.pollingTimeoutRef := None;
     WsPage.reconnectTimeoutRef := None;
     WsPage.reconnectAttemptsRef := 3;
     WsPage.pollingFailuresRef := 0 |}.

End Sample.

(** * Properties *)

(** ** Strict equality *)

Lemma strict_eq_int_true a b : Js.strict_eq_int a b = true → a = b.
Proof. apply Z.eqb_eq. Qed.

(** [===] holds between identical doubles only, the two zeros apart. *)
Lemma strict_eq_number_true a b :
  Js.strict_eq_number a b = true →
  Js.is_negative_zero a = false → Js.is_negative_zero b = false → a = b.
Proof.
  unfold Js.strict_eq_number, SFeqb.
  destruct a as [sa|sa| |sa ma ea], b as [sb|sb| |sb mb eb]; simpl;
    try (destruct sa); try (destruct sb); simpl;
    intros H Ha Hb; try discriminate; try reflexivity;
    destruct (Z.compare ea eb) eqn:He; try discriminate;
    destruct (Pos.compare_cont Eq ma mb) eqn:Hm; try discriminate;
    apply Z.compare_eq in He; apply Pos.compare_eq in Hm; congruence.
Qed.

(** ** calculateDelta *)

(** C1, as stated, fails on the team names: a publication that renames the
    home team yields a delta without [homeTeam], although the name differs
    from the cached one. *)
Lemma calculateDelta_omits_renamed_team :
  ¬ (is_Some (GameDelta.get HomeTeam
                (Relay.calculateDelta Sample.game1_renamed (Some Sample.game1)))
     ↔ Js.strict_neq (GameState.get HomeTeam Sample.game1_renamed)
                     (GameState.get HomeTeam Sample.game1) = true).
Proof.
  intros [_ H]. specialize (H eq_refl). destruct H as [x H]. discriminate H.
Qed.

(** C1 (amended): against a cached previous snapshot, the delta carries the
    identifier and the timestamp of the new snapshot, and carries a field
    exactly when it is one of the two scores and three odds and its new
    value is not strictly equal to the cached one, with the new value; the
    team names are never part of it. *)
Theorem calculateDelta_changed_fields (s prev : GameState.t) :
  let d := Relay.calculateDelta s (Some prev) in
  GameDelta.id d = GameState.id s ∧
  GameDelta.lastUpdated d = GameState.lastUpdated s ∧
  ∀ f, GameDelta.get f d =
         if compared f && Js.strict_neq (GameState.get f s) (GameState.get f prev)
         then Some (GameState.get f s)
         else None.
Proof.
  simpl. split; [reflexivity|]. split; [reflexivity|].
  intros []; simpl; try reflexivity; unfold Relay.changed;
    match goal with |- context [if ?b then None else _] => destruct b end;
    reflexivity.
Qed.

(** On a cache miss the delta is the snapshot itself, every field
    included. *)
Lemma calculateDelta_first (s : GameState.t) :
  Relay.calculateDelta s None = GameDelta.of_state s ∧
  ∀ f, GameDelta.get f (Relay.calculateDelta s None) = Some (GameState.get f s).
Proof. split; [reflexivity|]. intros []; reflexivity. Qed.

(** The specification's example: only the home odds moved. *)
Example calculateDelta_home_odds :
  Relay.calculateDelta Sample.game1_next (Some Sample.game1) =
  GameDelta.mk "game1" 1200 None None None None (Some Sample.odds_2_3) None None.
Proof. reflexivity. Qed.

(** ** The publication handler *)

(** The state a publication leaves behind when Redis serves both
    commands. *)
Lemma on_message_healthy st c channel s :
  Relay.Redis.get_fulfilled c = true →
  Relay.Redis.setEx_fulfilled c = true →
  let key := Relay.stateKey channel in
  let previous := (Relay.Redis.GET (Relay.Redis.now c) key (Relay.redis st)).1 in
  Relay.on_message c channel (Relay.Encoded s) st =
  (Relay.Ok tt,
   Relay.bump_messagesBroadcast
     (Relay.push_sent
        {| Relay.recipients := Relay.room_members channel st;
           Relay.emitted := Relay.Delta (Relay.calculateDelta s previous) |}
        (Relay.set_redis (Relay.Redis.SETEX (Relay.Redis.now c) key 60 s (Relay.redis st))
           (Relay.bump_messagesReceived st)))).
Proof.
  intros Hget Hset. destruct st.
  unfold Relay.on_message, Relay.try_catch, Relay.bind, Relay.redisClient_get,
    Relay.redisClient_setEx.
  rewrite Hget, Hset. reflexivity.
Qed.

(** The state a publication leaves behind when the write is rejected. *)
Lemma on_message_write_rejected st c channel s :
  Relay.Redis.get_fulfilled c = true →
  Relay.Redis.setEx_fulfilled c = false →
  Relay.on_message c channel (Relay.Encoded s) st =
  (Relay.Ok tt,
   Relay.push_error "Error: SETEX rejected" (Relay.bump_messagesReceived st)).
Proof.
  intros Hget Hset. destruct st.
  unfold Relay.on_message, Relay.try_catch, Relay.bind, Relay.redisClient_get,
    Relay.redisClient_setEx.
  rewrite Hget, Hset. reflexivity.
Qed.

(** A payload that does not parse is logged and changes nothing else. *)
Lemma on_message_garbled st c channel raw :
  Relay.on_message c channel (Relay.Garbled raw) st =
  (Relay.Ok tt, Relay.push_error "SyntaxError: Unexpected token" st).
Proof. reflexivity. Qed.

(** C3, as stated, fails: the write comes after [await redisClient.get] in
    the same [try].  A decoded publication whose read Redis rejects is
    counted as received and the error logged, but no write is issued: with
    an empty cache the snapshot is not stored, and with [game1] cached until
    second 70 a publication at second 30 leaves that entry and its expiry
    as they were. *)
Lemma rejected_read_stores_nothing :
  let first := Relay.on_message (Sample.read_rejected 10) "game1"
                 (Relay.Encoded Sample.game1) Sample.relay_c1 in
  let second := Relay.on_message (Sample.read_rejected 30) "game1"
                  (Relay.Encoded Sample.game1_next) Sample.relay_c1_cached in
  first.1 = Relay.Ok tt ∧
  Relay.messagesReceived (Relay.stats first.2) = 1 ∧
  Relay.redis first.2 !! Relay.stateKey "game1" = None ∧
  second.1 = Relay.Ok tt ∧
  Relay.redis second.2 !! Relay.stateKey "game1" = Some (Sample.game1, 70) ∧
  Relay.errors second.2 = ["Error: GET rejected"].
Proof. repeat split; vm_compute; reflexivity. Qed.

(** C3 (amended): a decoded publication for which Redis serves both the read
    and the write is stored under the channel's key with a lifetime of 60
    seconds counted from the write, whatever the delta and whatever the
    entry held before; the read that precedes the write leaves the store as
    it was, so the write is the only change, and the other keys keep their
    entries. *)
Theorem snapshot_stored_with_fresh_ttl st c channel s :
  Relay.Redis.get_fulfilled c = true →
  Relay.Redis.setEx_fulfilled c = true →
  let key := Relay.stateKey channel in
  let now := Relay.Redis.now c in
  let out := Relay.on_message c channel (Relay.Encoded s) st in
  out.1 = Relay.Ok tt ∧
  Relay.redis out.2 !! key = Some (s, now + 60) ∧
  (∀ t, t < now + 60 → (Relay.Redis.GET t key (Relay.redis out.2)).1 = Some s) ∧
  (Relay.Redis.GET now key (Relay.redis st)).2 = Relay.redis st ∧
  Relay.redis out.2 = Relay.Redis.SETEX now key 60 s (Relay.redis st) ∧
  (∀ k, k ≠ key → Relay.redis out.2 !! k = Relay.redis st !! k).
Proof.
  intros Hget Hset key now out. subst out.
  rewrite (on_message_healthy st c channel s Hget Hset).
  fold key. fold now. destruct st as [db ? ? ? ? ? ?]. simpl.
  unfold Relay.Redis.SETEX, Relay.Redis.GET.
  split; [reflexivity|]. split; [apply lookup_insert_eq|].
  split.
  { intros t Ht. simpl. rewrite lookup_insert_eq.
    destruct (t <? now + 60) eqn:E; [reflexivity|]. apply Z.ltb_ge in E. lia. }
  split; [reflexivity|]. split; [reflexivity|].
  intros k Hk. apply lookup_insert_ne. congruence.
Qed.

Lemma snapshot_stored_with_fresh_ttl_witness :
  let out := Relay.on_message (Relay.Redis.healthy 30) "game1"
               (Relay.Encoded Sample.game1) Sample.relay_c1_cached in
  Relay.redis out.2 !! "game:state:game1" = Some (Sample.game1, 90) ∧
  GameDelta.get HomeOdds
    (Relay.calculateDelta Sample.game1 (Some Sample.game1)) = None.
Proof.
  split; [|reflexivity].
  apply (snapshot_stored_with_fresh_ttl Sample.relay_c1_cached
           (Relay.Redis.healthy 30) "game1" Sample.game1); reflexivity.
Defined.

(** C9, as stated, fails: with socket [c1] in the room and the write
    rejected, the handler returns without sending [c1] anything. *)
Lemma write_failure_sends_nothing :
  let c := {| Relay.Redis.now := 10; Relay.Redis.get_fulfilled := true;
              Relay.Redis.setEx_fulfilled := false |} in
  let out := Relay.on_message c "game1" (Relay.Encoded Sample.game1) Sample.relay_c1 in
  "c1" ∈ Relay.room_members "game1" Sample.relay_c1 ∧
  Relay.deltas_to "c1" (Relay.sent Sample.relay_c1) = [] ∧
  Relay.deltas_to "c1" (Relay.sent out.2) = [].
Proof.
  split; [|split].
  - vm_compute. reflexivity.
  - vm_compute. reflexivity.
  - vm_compute. reflexivity.
Qed.

(** C9 (amended): a rejected write is caught and logged and the handler
    returns normally; the publication is counted as received, but the cache,
    the emitted events, the broadcast counter and the registry stay as they
    were, so nothing is sent for it.  The next publication served by Redis
    is processed as usual, its delta computed against whatever the cache
    still holds. *)
Theorem write_failure_is_caught st c channel s :
  Relay.Redis.get_fulfilled c = true →
  Relay.Redis.setEx_fulfilled c = false →
  let out := Relay.on_message c channel (Relay.Encoded s) st in
  out.1 = Relay.Ok tt ∧
  Relay.redis out.2 = Relay.redis st ∧
  Relay.sent out.2 = Relay.sent st ∧
  Relay.errors out.2 = Relay.errors st ++ ["Error: SETEX rejected"] ∧
  Relay.messagesReceived (Relay.stats out.2) = Relay.messagesReceived (Relay.stats st) + 1 ∧
  Relay.messagesBroadcast (Relay.stats out.2) = Relay.messagesBroadcast (Relay.stats st) ∧
  Relay.rooms out.2 = Relay.rooms st ∧
  Relay.socketSubscriptions out.2 = Relay.socketSubscriptions st ∧
  ∀ t s',
    let next := Relay.on_message (Relay.Redis.healthy t) channel (Relay.Encoded s') out.2 in
    next.1 = Relay.Ok tt ∧
    Relay.sent next.2 =
      Relay.sent st ++
      [{| Relay.recipients := Relay.room_members channel st;
          Relay.emitted :=
            Relay.Delta (Relay.calculateDelta s'
              (Relay.Redis.GET t (Relay.stateKey channel) (Relay.redis st)).1) |}].
Proof.
  intros Hget Hset out. subst out.
  rewrite (on_message_write_rejected st c channel s Hget Hset).
  destruct st as [db sk rm subs stt out errs]. simpl.
  do 8 (split; [reflexivity|]).
  intros t' s'. split; reflexivity.
Qed.

Lemma write_failure_is_caught_witness :
  let c := {| Relay.Redis.now := 10; Relay.Redis.get_fulfilled := true;
              Relay.Redis.setEx_fulfilled := false |} in
  let out := Relay.on_message c "game1" (Relay.Encoded Sample.game1) Sample.relay_c1 in
  out.1 = Relay.Ok tt ∧ Relay.sent out.2 = Relay.sent Sample.relay_c1.
Proof.
  pose proof (write_failure_is_caught Sample.relay_c1
    {| Relay.Redis.now := 10; Relay.Redis.get_fulfilled := true;
       Relay.Redis.setEx_fulfilled := false |} "game1" Sample.game1
    eq_refl eq_refl) as H.
  simpl in H. destruct H as (H1 & _ & H3 & _). split; [exact H1 | exact H3].
Defined.

(** ** The subscription handlers *)

(** C4: a [subscribe] or [unsubscribe] whose argument is not an array
    returns normally after one [error] event addressed to the requesting
    socket alone; every other component of the relay, in particular every
    socket's subscription set and every room, is as before. *)
Theorem malformed_request_rejected st sid gameIds :
  Relay.Array_isArray gameIds = false →
  let reply := {| Relay.recipients := {[sid]};
                  Relay.emitted := Relay.Error "gameIds must be an array" |} in
  Relay.on_subscribe sid gameIds st = (Relay.Ok tt, Relay.push_sent reply st) ∧
  Relay.on_unsubscribe sid gameIds st = (Relay.Ok tt, Relay.push_sent reply st) ∧
  Relay.socketSubscriptions (Relay.push_sent reply st) = Relay.socketSubscriptions st ∧
  Relay.rooms (Relay.push_sent reply st) = Relay.rooms st ∧
  Relay.sent (Relay.push_sent reply st) = Relay.sent st ++ [reply].
Proof.
  intros Harr reply.
  unfold Relay.on_subscribe, Relay.on_unsubscribe. rewrite Harr. simpl.
  repeat split; reflexivity.
Qed.

Lemma malformed_request_rejected_witness :
  Relay.socketSubscriptions
    (Relay.on_subscribe "c1" (Relay.String "game2") Sample.relay_c1).2 =
  Relay.socketSubscriptions Sample.relay_c1.
Proof.
  destruct (malformed_request_rejected Sample.relay_c1 "c1" (Relay.String "game2") eq_refl)
    as (Hsub & _ & Hsets & _).
  rewrite Hsub. exact Hsets.
Defined.

(** The loops of the two handlers run to the end when the socket has a set,
    and touch neither the connected sockets nor the keys of
    [socketSubscriptions]. *)
Lemma subscribe_loop sid ids : ∀ st,
  is_Some (Relay.socketSubscriptions st !! sid) →
  ∃ st',
    Relay.forEach
      (λ gameId, Relay.bind (Relay.socket_join sid gameId)
                   (λ _, Relay.subscriptions_add sid gameId)) ids st
    = (Relay.Ok tt, st') ∧
    Relay.sockets st' = Relay.sockets st ∧
    dom (Relay.socketSubscriptions st') = dom (Relay.socketSubscriptions st).
Proof.
  induction ids as [|g ids IH]; intros st Hsome.
  - exists st. repeat split; reflexivity.
  - destruct Hsome as [subs Hsubs]. destruct st as [db sk rm m stt out errs].
    simpl in Hsubs.
    destruct (IH {| Relay.redis := db; Relay.sockets := sk;
                    Relay.rooms := <[g := {[sid]} ∪ default ∅ (rm !! g)]> rm;
                    Relay.socketSubscriptions := <[sid := {[g]} ∪ subs]> m;
                    Relay.stats := stt; Relay.sent := out; Relay.errors := errs |})
      as (st' & Hrun & Hsk & Hdom).
    { simpl. rewrite lookup_insert_eq. eauto. }
    exists st'. simpl in *.
    unfold Relay.bind, Relay.socket_join, Relay.subscriptions_add, Relay.modify,
      Relay.room_members. simpl. rewrite Hsubs. simpl.
    unfold Relay.bind in Hrun. split; [exact Hrun|]. split; [exact Hsk|].
    rewrite Hdom, dom_insert_L.
    apply subseteq_union_1_L, singleton_subseteq_l, elem_of_dom. eauto.
Qed.

Lemma unsubscribe_loop sid ids : ∀ st,
  is_Some (Relay.socketSubscriptions st !! sid) →
  ∃ st',
    Relay.forEach
      (λ gameId, Relay.bind (Relay.socket_leave sid gameId)
                   (λ _, Relay.subscriptions_delete sid gameId)) ids st
    = (Relay.Ok tt, st') ∧
    Relay.sockets st' = Relay.sockets st ∧
    dom (Relay.socketSubscriptions st') = dom (Relay.socketSubscriptions st).
Proof.
  induction ids as [|g ids IH]; intros st Hsome.
  - exists st. repeat split; reflexivity.
  - destruct Hsome as [subs Hsubs]. destruct st as [db sk rm m stt out errs].
    simpl in Hsubs.
    destruct (IH {| Relay.redis := db; Relay.sockets := sk;
                    Relay.rooms := alter (λ members, members ∖ {[sid]}) g rm;
                    Relay.socketSubscriptions := <[sid := subs ∖ {[g]}]> m;
                    Relay.stats := stt; Relay.sent := out; Relay.errors := errs |})
      as (st' & Hrun & Hsk & Hdom).
    { simpl. rewrite lookup_insert_eq. eauto. }
    exists st'. simpl in *.
    unfold Relay.bind, Relay.socket_leave, Relay.subscriptions_delete, Relay.modify.
    simpl. rewrite Hsubs. simpl.
    unfold Relay.bind in Hrun. split; [exact Hrun|]. split; [exact Hsk|].
    rewrite Hdom, dom_insert_L.
    apply subseteq_union_1_L, singleton_subseteq_l, elem_of_dom. eauto.
Qed.

Lemma on_subscribe_returns sid gameIds st :
  is_Some (Relay.socketSubscriptions st !! sid) →
  ∃ st', Relay.on_subscribe sid gameIds st = (Relay.Ok tt, st') ∧
         Relay.sockets st' = Relay.sockets st ∧
         dom (Relay.socketSubscriptions st') = dom (Relay.socketSubscriptions st).
Proof.
  intros Hsome. unfold Relay.on_subscribe.
  destruct (negb (Relay.Array_isArray gameIds)).
  - eexists. split; [reflexivity|]. destruct st; split; reflexivity.
  - destruct (subscribe_loop sid (Relay.items_of gameIds) st Hsome)
      as (st' & Hrun & Hsk & Hdom).
    eexists. unfold Relay.bind at 1. rewrite Hrun.
    split; [reflexivity|]. destruct st'; simpl in *. split; assumption.
Qed.

Lemma on_unsubscribe_returns sid gameIds st :
  is_Some (Relay.socketSubscriptions st !! sid) →
  ∃ st', Relay.on_unsubscribe sid gameIds st = (Relay.Ok tt, st') ∧
         Relay.sockets st' = Relay.sockets st ∧
         dom (Relay.socketSubscriptions st') = dom (Relay.socketSubscriptions st).
Proof.
  intros Hsome. unfold Relay.on_unsubscribe.
  destruct (negb (Relay.Array_isArray gameIds)).
  - eexists. split; [reflexivity|]. destruct st; split; reflexivity.
  - exact (unsubscribe_loop sid (Relay.items_of gameIds) st Hsome).
Qed.

(** A publication never touches the registry. *)
Lemma on_message_registry c channel message st :
  Relay.sockets (Relay.on_message c channel message st).2 = Relay.sockets st ∧
  Relay.socketSubscriptions (Relay.on_message c channel message st).2
    = Relay.socketSubscriptions st ∧
  Relay.rooms (Relay.on_message c channel message st).2 = Relay.rooms st.
Proof.
  destruct st, message as [raw|s]; [repeat split; reflexivity|].
  unfold Relay.on_message, Relay.try_catch, Relay.bind, Relay.redisClient_get,
    Relay.redisClient_setEx.
  destruct (Relay.Redis.get_fulfilled c), (Relay.Redis.setEx_fulfilled c);
    repeat split; reflexivity.
Qed.

(** The sockets that have a subscription set are the connected ones. *)
Lemma reachable_registry st :
  Relay.reachable st → dom (Relay.socketSubscriptions st) = Relay.sockets st.
Proof.
  induction 1 as [|st ev st' Hreach IH Hen Hstep].
  - simpl. apply dom_empty_L.
  - destruct ev as [sid|sid gameIds|sid gameIds|sid|c channel message];
      simpl in Hen, Hstep.
    + destruct st. inversion Hstep; subst; clear Hstep. simpl in *.
      rewrite dom_insert_L, IH. reflexivity.
    + apply bool_decide_eq_true in Hen.
      destruct (on_subscribe_returns sid gameIds st) as (st2 & Hrun & Hsk & Hdom).
      { apply elem_of_dom. rewrite IH. exact Hen. }
      rewrite Hrun in Hstep. inversion Hstep; subst. congruence.
    + apply bool_decide_eq_true in Hen.
      destruct (on_unsubscribe_returns sid gameIds st) as (st2 & Hrun & Hsk & Hdom).
      { apply elem_of_dom. rewrite IH. exact Hen. }
      rewrite Hrun in Hstep. inversion Hstep; subst. congruence.
    + destruct st. inversion Hstep; subst; clear Hstep. simpl in *.
      rewrite dom_delete_L, IH. reflexivity.
    + destruct (on_message_registry c channel message st) as (Hsk & Hsubs & _).
      rewrite Hstep in Hsk, Hsubs. simpl in Hsk, Hsubs. congruence.
Qed.

(** C10: in every state the relay reaches, each connected socket has an
    entry in [socketSubscriptions] (and only connected sockets have one: the
    entry appears with the connection and goes with the disconnection), so
    the subscribe and unsubscribe handlers of a connected socket find their
    set and return without an exception, whatever argument they get. *)
Theorem connected_socket_has_subscriptions st sid :
  Relay.reachable st →
  sid ∈ Relay.sockets st →
  is_Some (Relay.socketSubscriptions st !! sid) ∧
  dom (Relay.socketSubscriptions st) = Relay.sockets st ∧
  (∀ gameIds, ∃ st', Relay.on_subscribe sid gameIds st = (Relay.Ok tt, st')) ∧
  (∀ gameIds, ∃ st', Relay.on_unsubscribe sid gameIds st = (Relay.Ok tt, st')).
Proof.
  intros Hreach Hin. pose proof (reachable_registry st Hreach) as Hdom.
  assert (Hsome : is_Some (Relay.socketSubscriptions st !! sid)).
  { apply elem_of_dom. rewrite Hdom. exact Hin. }
  split; [exact Hsome|]. split; [exact Hdom|]. split; intros gameIds.
  - destruct (on_subscribe_returns sid gameIds st Hsome) as (st' & Hrun & _). eauto.
  - destruct (on_unsubscribe_returns sid gameIds st Hsome) as (st' & Hrun & _). eauto.
Qed.

Lemma sample_relay_reachable : Relay.reachable Sample.relay_c1.
Proof.
  apply (Relay.reachable_step (Relay.on_connection "c1" Relay.init).2
           (Relay.Subscribe "c1" (Relay.Array ["game1"]))).
  - apply (Relay.reachable_step Relay.init (Relay.Connection "c1")).
    + apply Relay.reachable_init.
    + vm_compute. reflexivity.
    + vm_compute. reflexivity.
  - vm_compute. reflexivity.
  - vm_compute. reflexivity.
Defined.

Lemma connected_socket_has_subscriptions_witness :
  is_Some (Relay.socketSubscriptions Sample.relay_c1 !! "c1").
Proof.
  apply (connected_socket_has_subscriptions Sample.relay_c1 "c1").
  - exact sample_relay_reachable.
  - vm_compute. reflexivity.
Defined.

(** ** applyDelta *)

(** [applyDelta] on the own properties of [games]: when the delta's
    identifier is one of them, the entry for it is replaced by one that
    takes each of the five numeric fields from the delta if the delta has it
    and keeps the old value otherwise, keeps the identifier and the team
    names, and takes the delta's timestamp; a field the delta lacks is
    unchanged, and so is every other entity. *)
Lemma applyDelta_frame (delta : GameDelta.t) (v : Client.view) :
  let games' := Client.games (Client.applyDelta delta v) in
  match Client.games v !! GameDelta.id delta with
  | Some game =>
      ∃ game',
        games' = <[GameDelta.id delta := game']> (Client.games v) ∧
        (∀ f, GameState.get f game' =
                match GameDelta.get f delta with
                | Some x => if compared f then x else GameState.get f game
                | None => GameState.get f game
                end) ∧
        GameState.id game' = GameState.id game ∧
        GameState.lastUpdated game' = GameDelta.lastUpdated delta
  | None => games' = Client.games v
  end ∧
  ∀ k, k ≠ GameDelta.id delta → games' !! k = Client.games v !! k.
Proof.
  simpl. unfold Client.patch.
  destruct (Client.games v !! GameDelta.id delta) as [game|] eqn:Hlook.
  - split.
    + eexists. split; [reflexivity|]. split; [|split; reflexivity].
      destruct delta as [i lu [ht|] [at_|] [hs|] [as_|] [ho|] [ao|] [do_|]];
        intros []; reflexivity.
    + intros k Hk. apply lookup_insert_ne. congruence.
  - split; [reflexivity|]. intros; reflexivity.
Qed.

(** *** The object and the finite map *)

Lemma proto_is_inherited : "__proto__" ∈ GamesObject.prototype_names.
Proof. apply (bool_decide_unpack _). vm_compute. exact I. Qed.

(** A name that is not inherited reads as [undefined] unless it is an own
    property. *)
Lemma get_ordinary (games : GamesObject.t) key :
  GamesObject.proto games = None →
  GamesObject.ordinary key →
  GamesObject.get games key =
    match GamesObject.own games !! key with
    | Some e => GamesObject.Stored e
    | None => GamesObject.Undefined
    end.
Proof.
  intros Hproto Hord. unfold GamesObject.get. rewrite Hproto.
  destruct (GamesObject.own games !! key); [reflexivity|].
  destruct (String.eqb_spec key "__proto__") as [->|_].
  - destruct Hord. exact proto_is_inherited.
  - unfold GamesObject.inherited. rewrite bool_decide_eq_false_2 by exact Hord.
    reflexivity.
Qed.

(** On an object literal whose properties are games, a delta addressed to one
    of them or to a name that is not inherited does what [Client.patch]
    does on the finite map. *)
Lemma patch_refines delta (games : gmap string GameState.t) :
  is_Some (games !! GameDelta.id delta) ∨ GamesObject.ordinary (GameDelta.id delta) →
  GamesObject.patch delta (GamesObject.of_games games)
  = GamesObject.of_games (Client.patch delta games).
Proof.
  intros H. unfold GamesObject.patch, Client.patch.
  destruct (games !! GameDelta.id delta) as [game|] eqn:Hlook.
  - unfold GamesObject.get, GamesObject.of_games. simpl.
    rewrite lookup_fmap, Hlook. simpl. rewrite fmap_insert. reflexivity.
  - destruct H as [[game H]|H]; [discriminate H|].
    rewrite get_ordinary by (reflexivity || exact H).
    simpl. rewrite lookup_fmap, Hlook. reflexivity.
Qed.

(** [gamesMap] agrees with the finite map as long as no game of the
    response has the identifier [__proto__]. *)
Lemma gamesMap_refines initialGames :
  Forall (λ game, GameState.id game ≠ "__proto__") initialGames →
  GamesObject.gamesMap initialGames
  = GamesObject.of_games (Client.gamesMap initialGames).
Proof.
  unfold GamesObject.gamesMap, Client.gamesMap.
  change GamesObject.empty with (GamesObject.of_games ∅).
  generalize (∅ : gmap string GameState.t).
  induction initialGames as [|game l IH]; intros m Hall; [reflexivity|].
  apply Forall_cons in Hall as [Hne Hall]. simpl. rewrite <- (IH _ Hall). f_equal.
  unfold GamesObject.assign.
  destruct (String.eqb_spec (GameState.id game) "__proto__") as [E|_];
    [contradiction|].
  unfold GamesObject.of_games. simpl. rewrite fmap_insert. reflexivity.
Qed.

(** A delta for an identifier that is neither held nor inherited is
    ignored. *)
Lemma applyDelta_ignores_unknown (delta : GameDelta.t) (games : GamesObject.t) :
  GamesObject.proto games = None →
  GamesObject.own games !! GameDelta.id delta = None →
  GamesObject.ordinary (GameDelta.id delta) →
  GamesObject.patch delta games = games.
Proof.
  intros Hproto Hnone Hord. unfold GamesObject.patch.
  rewrite get_ordinary, Hnone by assumption. reflexivity.
Qed.

(** C8 on the code: [applyDelta] looks the identifier up with
    [prevGames[delta.id]], which also finds what the object inherits from
    [Object.prototype].  When the delta's identifier is the name of such a
    property and the games do not hold it, the value read is truthy, the
    guard [if (!game) return prevGames] does not fire, and an entry is
    inserted under the identifier: an object made of the delta's numeric
    fields and timestamp, with no identifier and no team names. *)
Theorem applyDelta_inserts_inherited_identifier (delta : GameDelta.t)
    (games : GamesObject.t) :
  GamesObject.proto games = None →
  GamesObject.own games !! GameDelta.id delta = None →
  GameDelta.id delta ∈ GamesObject.prototype_names →
  let games' := GamesObject.patch delta games in
  GamesObject.own games' =
    <[GameDelta.id delta :=
        GamesObject.Remnant
          {| GamesObject.characters := "";
             GamesObject.homeOdds := GameDelta.homeOdds delta;
             GamesObject.awayOdds := GameDelta.awayOdds delta;
             GamesObject.drawOdds := GameDelta.drawOdds delta;
             GamesObject.homeScore := GameDelta.homeScore delta;
             GamesObject.awayScore := GameDelta.awayScore delta;
             GamesObject.lastUpdated := GameDelta.lastUpdated delta |}]>
      (GamesObject.own games) ∧
  is_Some (GamesObject.own games' !! GameDelta.id delta) ∧
  games' ≠ games.
Proof.
  destruct games as [o p]. simpl. intros -> Hnone Hin.
  assert (Hpatch :
    GamesObject.patch delta {| GamesObject.own := o; GamesObject.proto := None |}
    = {| GamesObject.own :=
           <[GameDelta.id delta :=
               GamesObject.Remnant
                 (GamesObject.patch_remnant "" delta None None None None None)]> o;
         GamesObject.proto := None |}).
  { unfold GamesObject.patch, GamesObject.get. simpl. rewrite Hnone.
    destruct (String.eqb (GameDelta.id delta) "__proto__"); [reflexivity|].
    unfold GamesObject.inherited. rewrite bool_decide_eq_true_2 by exact Hin.
    reflexivity. }
  rewrite Hpatch. simpl. split; [|split].
  - unfold GamesObject.patch_remnant, GamesObject.nullish.
    destruct delta as [i lu ht at_ [hs|] [as_|] [ho|] [ao|] [do_|]]; reflexivity.
  - rewrite lookup_insert_eq. eauto.
  - intros [= Heq]. rewrite <- Heq, lookup_insert_eq in Hnone. discriminate Hnone.
Qed.

Lemma applyDelta_inserts_inherited_identifier_witness :
  let games := GamesObject.of_games {["game1" := Sample.game1]} in
  GamesObject.own games !! "constructor" = None ∧
  is_Some (GamesObject.own (GamesObject.patch Sample.constructor_delta games)
             !! "constructor").
Proof.
  intros games.
  assert (Hproto : GamesObject.proto games = None) by reflexivity.
  assert (Hnone : GamesObject.own games !! GameDelta.id Sample.constructor_delta = None)
    by (vm_compute; reflexivity).
  assert (Hin : GameDelta.id Sample.constructor_delta ∈ GamesObject.prototype_names)
    by (apply (bool_decide_unpack _); vm_compute; exact I).
  split; [exact Hnone|].
  destruct (applyDelta_inserts_inherited_identifier Sample.constructor_delta games
              Hproto Hnone Hin) as (_ & H & _).
  exact H.
Defined.

(** A delta for an identifier the client does not hold changes no game. *)
Example applyDelta_unknown_id :
  Client.games (Client.applyDelta (GameDelta.of_state Sample.game1)
                  {| Client.games := ∅; Client.updateCount := 0 |}) = ∅.
Proof. reflexivity. Qed.

(** ** Convergence *)

Lemma publish_cons channel t s pubs st :
  Relay.publish channel ((t, s) :: pubs) st =
  Relay.publish channel pubs
    (Relay.on_message (Relay.Redis.healthy t) channel (Relay.Encoded s) st).2.
Proof. reflexivity. Qed.

Lemma publish_sent channel pubs : ∀ st,
  ∃ l, Relay.sent (Relay.publish channel pubs st) = Relay.sent st ++ l.
Proof.
  induction pubs as [|[t s] pubs IH]; intros st.
  - exists []. simpl. rewrite app_nil_r. reflexivity.
  - rewrite publish_cons.
    destruct (IH (Relay.on_message (Relay.Redis.healthy t) channel
                    (Relay.Encoded s) st).2) as [l Hl].
    rewrite Hl, on_message_healthy by reflexivity.
    destruct st; simpl. rewrite <- app_assoc. eauto.
Qed.

(** A subscriber of the channel is sent the delta of each publication, in
    order. *)
Lemma relayed_cons sid channel t s pubs st :
  sid ∈ Relay.room_members channel st →
  Relay.relayed sid channel ((t, s) :: pubs) st =
  Relay.calculateDelta s
    (Relay.Redis.GET t (Relay.stateKey channel) (Relay.redis st)).1 ::
  Relay.relayed sid channel pubs
    (Relay.on_message (Relay.Redis.healthy t) channel (Relay.Encoded s) st).2.
Proof.
  intros Hin. unfold Relay.relayed. rewrite publish_cons.
  destruct (publish_sent channel pubs
              (Relay.on_message (Relay.Redis.healthy t) channel (Relay.Encoded s) st).2)
    as [l Hl].
  rewrite Hl, drop_app_length.
  rewrite on_message_healthy by reflexivity.
  destruct st as [db sk rm subs stt out errs]; simpl in *.
  rewrite <- app_assoc, drop_app_length. simpl.
  rewrite bool_decide_eq_true_2 by exact Hin. reflexivity.
Qed.

Lemma last_cons {A} (a d : A) l : List.last (a :: l) d = List.last l a.
Proof.
  revert a d. induction l as [|b l IH]; intros a d; [reflexivity|].
  change (List.last (b :: l) d = List.last (b :: l) a).
  rewrite !IH. reflexivity.
Qed.

(** Odds that JSON text preserves are not the negative zero. *)
Lemma json_odds_plain s : Relay.json_odds s → Relay.plain_odds s.
Proof.
  intros (H1 & H2 & H3). unfold Relay.plain_odds.
  destruct (GameState.homeOdds s) as [[]| | |], (GameState.awayOdds s) as [[]| | |],
    (GameState.drawOdds s) as [[]| | |]; simpl in *; try discriminate;
    repeat split; reflexivity.
Qed.

(** The delta of a snapshot whose odds JSON text preserves reaches the
    browser as the relay computed it. *)
Lemma on_the_wire_stable s previous :
  Relay.json_odds s →
  Relay.on_the_wire (Relay.calculateDelta s previous) = Relay.calculateDelta s previous.
Proof.
  intros (H1 & H2 & H3). destruct s as [i ht at_ hs as_ ho ao do_ lu]. simpl in *.
  destruct previous as [[i' ht' at' hs' as' ho' ao' do' lu']|];
    unfold Relay.on_the_wire, Relay.calculateDelta, Relay.changed; simpl.
  - destruct (Js.strict_eq_number ho ho'), (Js.strict_eq_number ao ao'),
      (Js.strict_eq_number do_ do'); simpl; rewrite ?H1, ?H2, ?H3; reflexivity.
  - rewrite H1, H2, H3. reflexivity.
Qed.

(** The entry [applyDelta] builds from the client's entry [g] and the delta
    for [s], computed against [g] or on a cache miss, is [s]. *)
Lemma patched_converges (g s : GameState.t) (previous : option GameState.t) :
  Relay.same_entity g s → Relay.plain_odds g → Relay.plain_odds s →
  (previous = None ∨ previous = Some g) →
  GamesObject.patched (GamesObject.Stored (GamesObject.Game g))
    (Relay.calculateDelta s previous)
  = GamesObject.Game s.
Proof.
  intros (Hid & Hhome & Haway) (Hg1 & Hg2 & Hg3) (Hs1 & Hs2 & Hs3) Hprev.
  destruct s as [i ht at_ hs as_ ho ao do_ lu], g as [i' ht' at' hs' as' ho' ao' do' lu'].
  simpl in *. subst i' ht' at'.
  destruct Hprev as [->| ->]; simpl; [reflexivity|].
  unfold Relay.changed.
  destruct (Js.strict_eq_number ho ho') eqn:E1;
    [apply strict_eq_number_true in E1; [subst ho'|assumption..]|];
  destruct (Js.strict_eq_number ao ao') eqn:E2;
    [apply strict_eq_number_true in E2; [subst ao'|assumption..]| |
     apply strict_eq_number_true in E2; [subst ao'|assumption..]|];
  destruct (Js.strict_eq_number do_ do') eqn:E3;
    try (apply strict_eq_number_true in E3; [subst do'|assumption..]);
  destruct (Js.strict_eq_int hs hs') eqn:E4;
    try (apply strict_eq_int_true in E4; subst hs');
  destruct (Js.strict_eq_int as_ as') eqn:E5;
    try (apply strict_eq_int_true in E5; subst as');
  reflexivity.
Qed.

(** A delta addressed to a game the object holds replaces that entry. *)
Lemma patch_known delta (games : GamesObject.t) game :
  GamesObject.own games !! GameDelta.id delta = Some (GamesObject.Game game) →
  GamesObject.patch delta games =
  {| GamesObject.own :=
       <[GameDelta.id delta :=
           GamesObject.patched (GamesObject.Stored (GamesObject.Game game)) delta]>
         (GamesObject.own games);
     GamesObject.proto := None |}.
Proof.
  intros Hlook. unfold GamesObject.patch, GamesObject.get. rewrite Hlook. reflexivity.
Qed.

(** One run of the listener with no other run in between is the run of its
    three segments. *)
Lemma on_message_uninterrupted c channel message st :
  Relay.on_message c channel message st =
  (Relay.Ok tt,
   (Relay.uninterrupted (Relay.uninterrupted (Relay.start c channel message st))).2).
Proof.
  destruct st as [db sk rm subs stt out errs], message as [raw|s]; [reflexivity|].
  unfold Relay.on_message, Relay.start, Relay.uninterrupted, Relay.resumed,
    Relay.resume, Relay.try_catch, Relay.bind, Relay.redisClient_get,
    Relay.redisClient_setEx.
  simpl. destruct (Relay.Redis.get_fulfilled c); simpl; [|reflexivity].
  destruct (Relay.Redis.setEx_fulfilled c); reflexivity.
Qed.

(** C2, as stated, fails when a publication changes a team name: the relay
    holds [game1], the client holds [game1], [game1_renamed] is published
    and its delta applied, and the client's entry is not the published
    snapshot. *)
Lemma renamed_team_never_reaches_client :
  "c1" ∈ Relay.room_members "game1" Sample.relay_c1_cached ∧
  Relay.redis Sample.relay_c1_cached !! Relay.stateKey "game1" = Some (Sample.game1, 70) ∧
  GamesObject.own
    (GamesObject.patchAll
       (Relay.on_the_wire <$>
          Relay.relayed "c1" "game1" [(20, Sample.game1_renamed)] Sample.relay_c1_cached)
       (GamesObject.of_games {["game1" := Sample.game1]})) !! "game1"
  ≠ Some (GamesObject.Game Sample.game1_renamed).
Proof.
  split; [vm_compute; reflexivity|]. split; [vm_compute; reflexivity|].
  vm_compute. discriminate.
Qed.

(** C2 (amended): let the client hold [s0] for an entity and subscribe to
    its channel, and let the relay's cache for the channel have no entry or
    an entry, expired or not, that holds [s0].  Let publications of that entity be processed one at a time, the
    listener's run for one having ended before the next is delivered, each
    served by Redis at any instant.  If their team names are those of [s0]
    and all odds, those of [s0] included, are finite and not the negative
    zero, so that JSON text preserves them, then applying the deltas the
    client is sent, in order and as decoded from the wire, leaves the
    client's entry equal to the last snapshot published. *)
Theorem no_loss_convergence sid channel pubs : ∀ st s0 games,
  sid ∈ Relay.room_members channel st →
  (∀ p e, Relay.redis st !! Relay.stateKey channel = Some (p, e) → p = s0) →
  GamesObject.own games !! GameState.id s0 = Some (GamesObject.Game s0) →
  Relay.json_odds s0 →
  Forall (λ p, Relay.same_entity s0 p.2 ∧ Relay.json_odds p.2) pubs →
  GamesObject.own
    (GamesObject.patchAll (Relay.on_the_wire <$> Relay.relayed sid channel pubs st) games)
    !! GameState.id s0
  = Some (GamesObject.Game (List.last (pubs.*2) s0)).
Proof.
  induction pubs as [|[t s] pubs IH]; intros st s0 games Hin Hcache Hview Hjson Hpubs.
  - unfold Relay.relayed. simpl. rewrite drop_all. exact Hview.
  - apply Forall_cons in Hpubs as [[Hsame Hs] Hrest]. simpl in Hsame, Hs.
    rewrite relayed_cons by exact Hin.
    rewrite fmap_cons, on_the_wire_stable by exact Hs.
    change (GamesObject.patchAll (?d :: ?ds) games)
      with (GamesObject.patchAll ds (GamesObject.patch d games)).
    set (st1 := (Relay.on_message (Relay.Redis.healthy t) channel (Relay.Encoded s) st).2).
    set (previous := (Relay.Redis.GET t (Relay.stateKey channel) (Relay.redis st)).1).
    assert (Hprev : previous = None ∨ previous = Some s0).
    { subst previous. unfold Relay.Redis.GET. simpl.
      destruct (Relay.redis st !! Relay.stateKey channel) as [[p e]|] eqn:E; [|by left].
      rewrite (Hcache p e eq_refl). destruct (t <? e); [by right | by left]. }
    assert (Hid : GameState.id s = GameState.id s0) by apply Hsame.
    assert (Hdid : GameDelta.id (Relay.calculateDelta s previous) = GameState.id s0).
    { destruct Hprev as [->| ->]; simpl; exact Hid. }
    rewrite fmap_cons, last_cons. simpl. rewrite <- Hid.
    assert (Hst1 : st1 = (Relay.on_message (Relay.Redis.healthy t) channel
                            (Relay.Encoded s) st).2) by reflexivity.
    rewrite on_message_healthy in Hst1 by reflexivity.
    apply IH.
    + rewrite Hst1. destruct st; exact Hin.
    + intros p e. rewrite Hst1. destruct st as [db sk rm subs stt out errs]. simpl.
      unfold Relay.Redis.SETEX. rewrite lookup_insert_eq. congruence.
    + rewrite <- Hdid in Hview. rewrite (patch_known _ _ _ Hview). simpl.
      rewrite Hdid, Hid, lookup_insert_eq. f_equal.
      apply patched_converges; [exact Hsame | by apply json_odds_plain..| exact Hprev].
    + exact Hs.
    + eapply Forall_impl; [exact Hrest|]. intros [t' p] [Hp1 Hp2]. simpl in *.
      split; [|exact Hp2].
      destruct Hsame as (H1 & H2 & H3), Hp1 as (H4 & H5 & H6).
      repeat split; congruence.
Qed.

Lemma no_loss_convergence_witness :
  GamesObject.own
    (GamesObject.patchAll
       (Relay.on_the_wire <$>
          Relay.relayed "c1" "game1" [(20, Sample.game1_next); (95, Sample.game1_back)]
            Sample.relay_c1_cached)
       (GamesObject.of_games {["game1" := Sample.game1]})) !! "game1"
  = Some (GamesObject.Game Sample.game1_back).
Proof.
  apply (no_loss_convergence "c1" "game1"
           [(20, Sample.game1_next); (95, Sample.game1_back)]
           Sample.relay_c1_cached Sample.game1
           (GamesObject.of_games {["game1" := Sample.game1]})).
  - vm_compute. reflexivity.
  - intros p e. vm_compute. intros H. injection H as H _. symmetry. exact H.
  - vm_compute. reflexivity.
  - vm_compute. repeat split; reflexivity.
  - repeat constructor.
Defined.

(** Each condition is needed.  The sign of a zero is hidden by strict
    equality: when odds of negative zero are published over cached odds of
    positive zero, the delta leaves them out and the client keeps the
    positive zero. *)
Example negative_zero_is_not_reported :
  let cached := GameState.mk "game1" "Arsenal" "Chelsea" 1 1
                  (S754_zero false) Sample.odds_2_8 Sample.odds_3_2 1000 in
  let published := GameState.mk "game1" "Arsenal" "Chelsea" 1 1
                     (S754_zero true) Sample.odds_2_8 Sample.odds_3_2 1200 in
  GameDelta.homeOdds (Relay.calculateDelta published (Some cached)) = None ∧
  GamesObject.own
    (GamesObject.patch (Relay.on_the_wire (Relay.calculateDelta published (Some cached)))
       (GamesObject.of_games {["game1" := cached]}))
    !! "game1"
  ≠ Some (GamesObject.Game published).
Proof. split; [reflexivity|]. vm_compute. discriminate. Qed.

(** Infinite odds, which [JSON.parse] yields for [1e999], are written [null]:
    the delta has the property, the browser reads [null], and [??] keeps the
    client's value. *)
Example infinite_odds_are_sent_as_null :
  let published := GameState.mk "game1" "Arsenal" "Chelsea" 1 1
                     (S754_infinity false) Sample.odds_2_8 Sample.odds_3_2 1200 in
  let delta := Relay.calculateDelta published (Some Sample.game1) in
  GameDelta.homeOdds delta = Some (S754_infinity false) ∧
  GameDelta.homeOdds (Relay.on_the_wire delta) = None ∧
  GamesObject.own
    (GamesObject.patch (Relay.on_the_wire delta)
       (GamesObject.of_games {["game1" := Sample.game1]}))
    !! "game1"
  ≠ Some (GamesObject.Game published).
Proof. split; [reflexivity|]. split; [reflexivity|]. vm_compute. discriminate. Qed.

(** Two runs of the listener that overlap: [game1_next] and then
    [game1_back] are delivered while [game1] is cached, and both reads are
    served before either write.  Both deltas are computed against [game1];
    the second has no odds, since [game1_back] has the odds of [game1], and
    the client is left with the odds of [game1_next]. *)
Example overlapping_runs_do_not_converge :
  let r1 := Relay.start (Relay.Redis.healthy 20) "game1"
              (Relay.Encoded Sample.game1_next) Sample.relay_c1_cached in
  let r2 := Relay.start (Relay.Redis.healthy 21) "game1"
              (Relay.Encoded Sample.game1_back) r1.2 in
  let w1 := Relay.resumed r1.1 r2.2 in
  let w2 := Relay.resumed r2.1 w1.2 in
  let e1 := Relay.resumed w1.1 w2.2 in
  let e2 := Relay.resumed w2.1 e1.2 in
  let received :=
    Relay.on_the_wire <$>
      Relay.deltas_to "c1"
        (drop (length (Relay.sent Sample.relay_c1_cached)) (Relay.sent e2.2)) in
  e2.1 = None ∧
  Relay.redis e2.2 !! Relay.stateKey "game1" = Some (Sample.game1_back, 81) ∧
  GameDelta.homeOdds <$> received = [Some Sample.odds_2_3; None] ∧
  GamesObject.own
    (GamesObject.patchAll received (GamesObject.of_games {["game1" := Sample.game1]}))
    !! "game1"
  ≠ Some (GamesObject.Game Sample.game1_back).
Proof.
  split; [reflexivity|]. split; [vm_compute; reflexivity|].
  split; [vm_compute; reflexivity|]. vm_compute. discriminate.
Qed.

(** ** The transport manager *)

(** C5, as stated, fails: the open handler of the first socket, created by
    the [connect] of the mount with the three games subscribed, sends the
    subscription and nothing else; no initial-state request is among its
    effects. *)
Lemma onopen_requests_no_initial_state :
  let out := WsPage.onopen_of ["game1"; "game2"; "game3"] WsPage.mounted in
  WsPage.subscribedGames WsPage.mounted = ["game1"; "game2"; "game3"] ∧
  out.2 = [WsPage.Send (WsPage.subscribe ["game1"; "game2"; "game3"])] ∧
  existsb WsPage.initial_state_request out.2 = false.
Proof. repeat split; reflexivity. Qed.

(** C5 (amended): when a socket opens, the manager marks the connection as
    [websocket], resets the reconnect counter to 0 and sends one [subscribe]
    message with the subscription set its [connect] captured, that is the
    set of the render in which the [connect] that created the socket was
    made, whatever the set is by now; it issues no other effect, in
    particular no request for the initial state. *)
Theorem onopen_resets_and_subscribes (captured : list string) (st : WsPage.t) :
  let out := WsPage.onopen_of captured st in
  WsPage.reconnectAttemptsRef out.1 = 0 ∧
  WsPage.connectionType out.1 = WsPage.websocket ∧
  out.2 = [WsPage.Send (WsPage.subscribe captured)] ∧
  out.1 = WsPage.set_reconnectAttemptsRef 0
            (WsPage.set_connectionType WsPage.websocket st) ∧
  WsPage.subscribedGames out.1 = WsPage.subscribedGames st ∧
  WsPage.onopen st = WsPage.onopen_of (WsPage.subscribedGames st) st.
Proof. destruct st. repeat split; reflexivity. Qed.

(** A socket made before an unsubscribe and opened after it subscribes to
    the game that was removed. *)
Example stale_socket_subscribes_to_removed_game :
  let st := (WsPage.handleUnsubscribe "game1" WsPage.mounted).1 in
  WsPage.subscribedGames st = ["game2"; "game3"] ∧
  (WsPage.onopen_of ["game1"; "game2"; "game3"] st).2
    = [WsPage.Send (WsPage.subscribe ["game1"; "game2"; "game3"])].
Proof. split; vm_compute; reflexivity. Qed.

(** ** Poll backoff *)

(** The delay chosen after a failed poll, as a function of the failures
    counted before it. *)
Lemma poll_failure_delay (st : WsPage.t) :
  WsPage.pollingRef st = true →
  let n := WsPage.pollingFailuresRef st + 1 in
  let out := WsPage.poll_settled WsPage.PollFailed st in
  WsPage.pollingFailuresRef out.1 = n ∧
  out.2 = [WsPage.SetTimeoutPoll (Z.min (1000 * 2 ^ n) 30000)].
Proof.
  intros Hp. destruct st. simpl in *. subst. split; reflexivity.
Qed.

(** A batch of deltas changes the games and the update counter only. *)
Lemma forEach_applyDelta ds : ∀ st,
  WsPage.forEach WsPage.applyDelta ds st =
  (WsPage.set_view (Client.applyAll ds (WsPage.view st)) st, []).
Proof.
  induction ds as [|d ds IH]; intros st.
  - destruct st; reflexivity.
  - simpl. unfold WsPage.seq. simpl. rewrite IH. destruct st; reflexivity.
Qed.

(** After a successful poll the counter is 0 again. *)
Lemma poll_success_resets (st : WsPage.t) deltas :
  WsPage.pollingFailuresRef (WsPage.poll_settled (WsPage.PollOk deltas) st).1 = 0.
Proof.
  unfold WsPage.poll_settled, WsPage.seq.
  destruct deltas as [ds|]; [rewrite forEach_applyDelta|];
    destruct st as [v ct sg ws [] pt rt ra pf]; reflexivity.
Qed.

(** The state in which the long-poll loop starts: three closes in a row,
    each reconnect timer having fired in between. *)
Lemma polling_reached :
  let st := (WsPage.run [WsPage.Onclose; WsPage.ReconnectTimeout;
                         WsPage.Onclose; WsPage.ReconnectTimeout;
                         WsPage.Onclose] WsPage.mounted).1 in
  st = Sample.polling_session ∧
  WsPage.pollingRef st = true ∧ WsPage.pollingFailuresRef st = 0.
Proof. repeat split; reflexivity. Qed.

(** C7 on the code: the first failed poll of a session is retried after
    2000 ms, not 1000 ms; the following ones after 4000, 8000, 16000 and
    30000 ms; and the first failure after a success again after 2000 ms. *)
Theorem first_poll_failure_waits_2000 :
  let fail := WsPage.PollSettled WsPage.PollFailed in
  let retry := WsPage.PollTimeout in
  let success := WsPage.PollSettled (WsPage.PollOk (Some [])) in
  (WsPage.step fail Sample.polling_session).2 = [WsPage.SetTimeoutPoll 2000] ∧
  WsPage.poll_delays
    (WsPage.run [fail; retry; fail; retry; fail; retry; fail; retry; fail; retry; fail]
       Sample.polling_session).2
  = [2000; 4000; 8000; 16000; 30000; 30000] ∧
  (WsPage.step fail
     (WsPage.run [fail; retry; success] Sample.polling_session).1).2
  = [WsPage.SetTimeoutPoll 2000].
Proof. repeat split; vm_compute; reflexivity. Qed.

(** ** Fallback to polling *)

Lemma run_app l1 l2 st :
  WsPage.run (l1 ++ l2) st =
  ((WsPage.run l2 (WsPage.run l1 st).1).1,
   (WsPage.run l1 st).2 ++ (WsPage.run l2 (WsPage.run l1 st).1).2).
Proof.
  revert st. induction l1 as [|ev l1 IH]; intros st; simpl.
  - unfold WsPage.skip. simpl. destruct (WsPage.run l2 st); reflexivity.
  - unfold WsPage.seq. destruct (WsPage.step ev st) as [st1 a1]. rewrite IH.
    destruct (WsPage.run l1 st1) as [st2 a2]. simpl.
    destruct (WsPage.run l2 st2) as [st3 a3]. simpl.
    rewrite app_assoc. reflexivity.
Qed.

Lemma admissible_app l1 l2 st :
  WsPage.admissible (l1 ++ l2) st =
  WsPage.admissible l1 st && WsPage.admissible l2 (WsPage.run l1 st).1.
Proof.
  revert st. induction l1 as [|ev l1 IH]; intros st; simpl; [reflexivity|].
  rewrite IH, andb_assoc. unfold WsPage.seq.
  destruct (WsPage.step ev st) as [st1 a1]. simpl.
  destruct (WsPage.run l1 st1); reflexivity.
Qed.

Ltac page_cases :=
  repeat match goal with
         | H : is_Some None |- _ => destruct H as [? H]; discriminate H
         | H : bool_decide _ = true |- _ => apply bool_decide_eq_true in H
         end.

(** Run the handlers on a state given field by field. *)
Ltac page_eval :=
  cbv beta iota zeta delta
    [WsPage.step WsPage.onopen WsPage.onopen_of WsPage.onmessage WsPage.onerror WsPage.onclose
     WsPage.connect WsPage.stopPolling WsPage.startPolling WsPage.poll
     WsPage.poll_settled WsPage.state_settled WsPage.setGames WsPage.applyDelta
     WsPage.seq WsPage.update WsPage.emit WsPage.skip
     WsPage.set_view WsPage.set_connectionType WsPage.set_subscribedGames
     WsPage.set_wsRef WsPage.set_pollingRef WsPage.set_pollingTimeoutRef
     WsPage.set_reconnectTimeoutRef WsPage.set_reconnectAttemptsRef
     WsPage.set_pollingFailuresRef
     WsPage.view WsPage.connectionType WsPage.subscribedGames WsPage.wsRef
     WsPage.pollingRef WsPage.pollingTimeoutRef WsPage.reconnectTimeoutRef
     WsPage.reconnectAttemptsRef WsPage.pollingFailuresRef
     WsPage.pushing WsPage.polling_mode WsPage.push_connect
     fst snd app existsb orb].

(** A transport event in the push phase stays there or starts polling. *)
Lemma step_pushing ev st :
  WsPage.pushing st →
  WsPage.transport ev = true →
  WsPage.enabled ev st = true →
  WsPage.pushing (WsPage.step ev st).1 ∨ WsPage.polling_mode (WsPage.step ev st).1.
Proof.
  destruct st as [v ct sg ws pr pt rt ra pf].
  intros (Hpr & Hpt & Hra & Hexcl) Htr Hen. simpl in *. subst pr pt.
  destruct ev as [|m| | | |r|o| |g]; try discriminate Htr.
  - left. destruct ws as [[]|]; try discriminate Hen.
    destruct Hexcl as [->|]; [|discriminate].
    page_eval. repeat split; try lia. by left.
  - left. destruct ws as [[]|]; try discriminate Hen.
    destruct Hexcl as [->|]; [|discriminate].
    destruct m as [g0|[ds|]|d|]; page_eval;
      try (fold WsPage.applyDelta; rewrite forEach_applyDelta); page_eval;
      repeat split; try lia; by left.
  - left. page_eval. repeat split; assumption.
  - simpl in Hen. page_cases. destruct ws as [w|]; [|page_cases].
    destruct Hexcl as [->|]; [|discriminate].
    page_eval. destruct (Z.leb_spec 3 (ra + 1)); page_eval.
    + right. repeat split; try reflexivity; lia.
    + left. repeat split; try reflexivity; try lia. by right.
  - simpl in Hen. page_cases. destruct rt as [d|]; [|page_cases].
    destruct Hexcl as [Hrt | Hws]; [discriminate Hrt|]. subst ws.
    left. page_eval. repeat split; try reflexivity; try lia. by left.
  - left. destruct r as [g0|]; page_eval; repeat split; assumption.
  - left. destruct o as [[ds|]|]; page_eval;
      try (fold WsPage.applyDelta; rewrite forEach_applyDelta); page_eval;
      repeat split; assumption.
  - simpl in Hen. discriminate Hen.
Qed.

(** A transport event in the polling phase stays there and issues neither
    a connection attempt nor a reconnect timer. *)
Lemma step_polling ev st :
  WsPage.polling_mode st →
  WsPage.transport ev = true →
  WsPage.enabled ev st = true →
  WsPage.polling_mode (WsPage.step ev st).1 ∧
  existsb WsPage.push_connect (WsPage.step ev st).2 = false.
Proof.
  destruct st as [v ct sg ws pr pt rt ra pf].
  intros (Hpr & Hct & Hws & Hrt & Hra) Htr Hen. simpl in *. subst pr ct ws rt.
  destruct ev as [|m| | | |r|o| |g]; try discriminate Htr;
    try discriminate Hen; simpl in Hen; page_cases.
  - destruct r as [g0|]; page_eval; repeat split; assumption.
  - destruct o as [[ds|]|]; page_eval;
      try (fold WsPage.applyDelta; rewrite forEach_applyDelta); page_eval;
      repeat split; assumption.
  - page_eval. repeat split; assumption.
Qed.

Lemma run_polling evs : ∀ st,
  WsPage.polling_mode st →
  forallb WsPage.transport evs = true →
  WsPage.admissible evs st = true →
  WsPage.polling_mode (WsPage.run evs st).1 ∧
  existsb WsPage.push_connect (WsPage.run evs st).2 = false.
Proof.
  induction evs as [|ev evs IH]; intros st Hpoll Htr Hadm.
  - split; [exact Hpoll | reflexivity].
  - simpl in Htr, Hadm. apply andb_prop in Htr as [Htr1 Htr2].
    apply andb_prop in Hadm as [Hen Hadm].
    destruct (step_polling ev st Hpoll Htr1 Hen) as [Hpoll1 Hquiet1].
    destruct (IH _ Hpoll1 Htr2 Hadm) as [Hpoll2 Hquiet2].
    simpl. unfold WsPage.seq.
    destruct (WsPage.step ev st) as [st1 a1]. simpl in *.
    destruct (WsPage.run evs st1) as [st2 a2]. simpl in *.
    split; [exact Hpoll2|]. rewrite existsb_app, Hquiet1, Hquiet2. reflexivity.
Qed.

Lemma run_phases evs : ∀ st,
  WsPage.pushing st ∨ WsPage.polling_mode st →
  forallb WsPage.transport evs = true →
  WsPage.admissible evs st = true →
  WsPage.pushing (WsPage.run evs st).1 ∨ WsPage.polling_mode (WsPage.run evs st).1.
Proof.
  induction evs as [|ev evs IH]; intros st Hinv Htr Hadm.
  - exact Hinv.
  - simpl in Htr, Hadm. apply andb_prop in Htr as [Htr1 Htr2].
    apply andb_prop in Hadm as [Hen Hadm].
    assert (Hinv1 : WsPage.pushing (WsPage.step ev st).1 ∨
                    WsPage.polling_mode (WsPage.step ev st).1).
    { destruct Hinv as [Hpush|Hpoll].
      - exact (step_pushing ev st Hpush Htr1 Hen).
      - right. exact (proj1 (step_polling ev st Hpoll Htr1 Hen)). }
    specialize (IH _ Hinv1 Htr2 Hadm).
    simpl. unfold WsPage.seq.
    destruct (WsPage.step ev st) as [st1 a1]. simpl in *.
    destruct (WsPage.run evs st1) as [st2 a2]. exact IH.
Qed.

(** Unsubscribing while polling runs the effect again, which stops the poll
    loop and opens a WebSocket. *)
Lemma unsubscribe_reconnects gameId st :
  WsPage.polling_mode st →
  let again := WsPage.step (WsPage.Unsubscribe gameId) st in
  WsPage.pollingRef again.1 = false ∧
  WsPage.pollingTimeoutRef again.1 = None ∧
  WsPage.wsRef again.1 = Some WsPage.CONNECTING ∧
  again.2 = match WsPage.pollingTimeoutRef st with
            | Some _ => [WsPage.ClearTimeoutPoll; WsPage.NewWebSocket]
            | None => [WsPage.NewWebSocket]
            end.
Proof.
  destruct st as [v ct sg ws pr pt rt ra pf].
  intros (_ & _ & Hws & Hrt & _). simpl in Hws, Hrt. subst ws rt.
  destruct pt; repeat split; reflexivity.
Qed.

(** The events of the transports leave the subscription set alone. *)
Lemma run_transport_subscribedGames evs : ∀ st,
  forallb WsPage.transport evs = true →
  WsPage.subscribedGames (WsPage.run evs st).1 = WsPage.subscribedGames st.
Proof.
  induction evs as [|ev evs IH]; intros st Htr; [reflexivity|].
  simpl in Htr. apply andb_prop in Htr as [Htr1 Htr2].
  assert (Hstep : WsPage.subscribedGames (WsPage.step ev st).1
                  = WsPage.subscribedGames st).
  { destruct st as [v ct sg ws pr pt rt ra pf].
    destruct ev as [|m| | | |r|o| |g]; try discriminate Htr1.
    - reflexivity.
    - destruct m as [g0|[ds|]|d|]; page_eval;
        try (fold WsPage.applyDelta; rewrite forEach_applyDelta); reflexivity.
    - reflexivity.
    - page_eval. destruct (3 <=? ra + 1), pr; reflexivity.
    - destruct ws as [[]|], pt; reflexivity.
    - destruct r as [g0|], pr; reflexivity.
    - destruct o as [[ds|]|]; page_eval;
        try (fold WsPage.applyDelta; rewrite forEach_applyDelta); page_eval;
        destruct pr; reflexivity.
    - destruct pr; reflexivity. }
  specialize (IH (WsPage.step ev st).1 Htr2). simpl. unfold WsPage.seq.
  destruct (WsPage.step ev st) as [st1 a1]. simpl in *.
  destruct (WsPage.run evs st1) as [st2 a2]. simpl in *. congruence.
Qed.

Lemma mounted_pushing : WsPage.pushing WsPage.mounted.
Proof. repeat split; try reflexivity; try (vm_compute; discriminate). by left. Qed.

(** C6, as stated, fails: after three failed attempts the session polls and
    shows the games it fetched; when the user then unsubscribes from one,
    the effect is run again and opens a new WebSocket, in the same
    session. *)
Lemma push_attempted_again_after_fallback :
  let failures := [WsPage.Onclose; WsPage.ReconnectTimeout;
                   WsPage.Onclose; WsPage.ReconnectTimeout; WsPage.Onclose] in
  let fetched := WsPage.StateSettled (Some [Sample.game1]) in
  let st := (WsPage.run (failures ++ [fetched]) WsPage.mounted).1 in
  WsPage.admissible (failures ++ [fetched; WsPage.Unsubscribe "game1"])
    WsPage.mounted = true ∧
  WsPage.reconnectAttemptsRef st = 3 ∧
  WsPage.connectionType st = WsPage.polling ∧
  (WsPage.step (WsPage.Unsubscribe "game1") st).2 = [WsPage.NewWebSocket] ∧
  existsb WsPage.push_connect (WsPage.step (WsPage.Unsubscribe "game1") st).2 = true.
Proof. repeat split; vm_compute; reflexivity. Qed.

(** C6 (amended): in a session whose subscription set has not changed since
    the mount, the close that brings the reconnect counter from 2 to 3
    starts polling: the state is [polling], the poll loop is on, and the
    only effect is the fetch of the initial state, so no reconnect is
    scheduled.  From then on, as long as the set still does not change, no
    event of the transports opens a WebSocket or schedules a reconnect, and
    the session stays in [polling].  The first unsubscribe ends it: the
    effect is run again, which stops the poll loop, cancelling the poll
    timer if one is pending, and opens a WebSocket. *)
Theorem third_failure_enters_polling pre post :
  forallb WsPage.transport (pre ++ WsPage.Onclose :: post) = true →
  WsPage.admissible (pre ++ WsPage.Onclose :: post) WsPage.mounted = true →
  let st := (WsPage.run pre WsPage.mounted).1 in
  WsPage.reconnectAttemptsRef st = 2 →
  let entered := WsPage.step WsPage.Onclose st in
  let after := WsPage.run post entered.1 in
  WsPage.reconnectAttemptsRef entered.1 = 3 ∧
  WsPage.connectionType entered.1 = WsPage.polling ∧
  WsPage.pollingRef entered.1 = true ∧
  WsPage.subscribedGames st = WsPage.subscribedGames WsPage.mounted ∧
  entered.2 = [WsPage.FetchState (WsPage.subscribedGames st)] ∧
  existsb WsPage.push_connect after.2 = false ∧
  WsPage.connectionType after.1 = WsPage.polling ∧
  WsPage.pollingRef after.1 = true ∧
  ∀ gameId,
    let again := WsPage.step (WsPage.Unsubscribe gameId) after.1 in
    WsPage.pollingRef again.1 = false ∧
    WsPage.pollingTimeoutRef again.1 = None ∧
    WsPage.wsRef again.1 = Some WsPage.CONNECTING ∧
    again.2 = match WsPage.pollingTimeoutRef after.1 with
              | Some _ => [WsPage.ClearTimeoutPoll; WsPage.NewWebSocket]
              | None => [WsPage.NewWebSocket]
              end.
Proof.
  intros Htr Hadm st Hra entered after.
  rewrite forallb_app in Htr. apply andb_prop in Htr as [Htr1 Htr2].
  simpl in Htr2.
  rewrite admissible_app in Hadm. apply andb_prop in Hadm as [Hadm1 Hadm2].
  fold st in Hadm2. simpl in Hadm2. apply andb_prop in Hadm2 as [Hen Hadm2].
  fold entered in Hadm2.
  assert (Hphase : WsPage.pushing st ∨ WsPage.polling_mode st).
  { apply run_phases; [left; exact mounted_pushing | exact Htr1 | exact Hadm1]. }
  assert (Hpush : WsPage.pushing st).
  { destruct Hphase as [H|(_ & _ & _ & _ & H)]; [exact H | lia]. }
  clear Hphase.
  assert (Hentered : entered =
            (WsPage.set_connectionType WsPage.polling
               (WsPage.set_pollingRef true
                  (WsPage.set_reconnectAttemptsRef 3
                     (WsPage.set_wsRef None
                        (WsPage.set_connectionType WsPage.disconnected st)))),
             [WsPage.FetchState (WsPage.subscribedGames st)])).
  { subst entered. destruct st as [v ct sg ws pr pt rt ra pf].
    destruct Hpush as (Hpr & _). simpl in Hpr, Hra. subst pr ra. reflexivity. }
  assert (Hpoll : WsPage.polling_mode entered.1).
  { rewrite Hentered. destruct st as [v ct sg ws pr pt rt ra pf].
    destruct Hpush as (_ & _ & _ & Hexcl). simpl in Hen, Hexcl.
    apply bool_decide_eq_true in Hen.
    destruct Hexcl as [Hrt|Hws]; [|rewrite Hws in Hen; destruct Hen; discriminate].
    simpl in *. subst rt. repeat split; try reflexivity; try lia. }
  destruct (run_polling post entered.1 Hpoll Htr2 Hadm2) as [Hstay Hquiet].
  fold after in Hstay, Hquiet.
  pose proof (λ gameId, unsubscribe_reconnects gameId after.1 Hstay) as Hagain.
  destruct Hstay as (Hpr & Hct & _).
  rewrite Hentered. rewrite Hentered in Hpoll.
  pose proof (run_transport_subscribedGames pre WsPage.mounted Htr1) as Hsg.
  fold st in Hsg.
  destruct st as [v ct sg ws pr pt rt ra pf]. simpl. simpl in Hsg.
  do 8 (split; [first [reflexivity | assumption]|]). exact Hagain.
Qed.

Lemma third_failure_enters_polling_witness :
  let pre := [WsPage.Onclose; WsPage.ReconnectTimeout;
              WsPage.Onclose; WsPage.ReconnectTimeout] in
  let post := [WsPage.StateSettled None; WsPage.PollSettled WsPage.PollFailed;
               WsPage.PollTimeout; WsPage.PollSettled (WsPage.PollOk (Some []))] in
  existsb WsPage.push_connect
    (WsPage.run post
       (WsPage.step WsPage.Onclose (WsPage.run pre WsPage.mounted).1).1).2 = false.
Proof.
  intros pre post.
  assert (Htr : forallb WsPage.transport (pre ++ WsPage.Onclose :: post) = true)
    by (vm_compute; reflexivity).
  assert (Hadm : WsPage.admissible (pre ++ WsPage.Onclose :: post) WsPage.mounted = true)
    by (vm_compute; reflexivity).
  assert (Hra : WsPage.reconnectAttemptsRef (WsPage.run pre WsPage.mounted).1 = 2)
    by (vm_compute; reflexivity).
  destruct (third_failure_enters_polling pre post Htr Hadm Hra)
    as (_ & _ & _ & _ & _ & Hquiet & _).
  exact Hquiet.
Defined.

(** Before the third failure a close schedules a reconnect instead: after
    2000 ms for the first failure and 4000 ms for the second. *)
Example reconnect_backoff :
  WsPage.run [WsPage.Onclose; WsPage.ReconnectTimeout; WsPage.Onclose] WsPage.mounted
  = ((WsPage.run [WsPage.Onclose; WsPage.ReconnectTimeout; WsPage.Onclose]
        WsPage.mounted).1,
     [WsPage.SetTimeoutConnect 2000; WsPage.NewWebSocket;
      WsPage.SetTimeoutConnect 4000]).
Proof. vm_compute. reflexivity. Qed.

(** * Further properties of the relay *)

#[local] Set Warnings "-clear-no-such-hyp".

(** ** The publication handler as a whole *)

Lemma app_singleton_neq {A} (l : list A) (x : A) : l ++ [x] ≠ l.
Proof.
  intros H. apply (f_equal length) in H. rewrite length_app in H. simpl in H. lia.
Qed.

(** The frame of the publication handler. *)
Lemma on_message_frame c channel message st :
  let out := Relay.on_message c channel message st in
  out.1 = Relay.Ok tt ∧
  Relay.sockets out.2 = Relay.sockets st ∧
  Relay.rooms out.2 = Relay.rooms st ∧
  Relay.socketSubscriptions out.2 = Relay.socketSubscriptions st ∧
  Relay.connectedClients (Relay.stats out.2) = Relay.connectedClients (Relay.stats st) ∧
  (Relay.sent out.2 = Relay.sent st ∨
   ∃ d, Relay.sent out.2 =
        Relay.sent st ++ [{| Relay.recipients := Relay.room_members channel st;
                             Relay.emitted := Relay.Delta d |}]) ∧
  (Relay.sent out.2 = Relay.sent st → Relay.redis out.2 = Relay.redis st).
Proof.
  destruct st as [db sk rm subs stt out0 errs], message as [raw|s].
  { simpl. repeat split; try reflexivity. by left. }
  unfold Relay.on_message, Relay.try_catch, Relay.bind, Relay.redisClient_get,
    Relay.redisClient_setEx.
  destruct (Relay.Redis.get_fulfilled c), (Relay.Redis.setEx_fulfilled c); simpl;
    repeat split; try reflexivity; try (by left).
  - right. eexists. reflexivity.
  - intros H. exfalso. exact (app_singleton_neq _ _ H).
Qed.

(** X1: Whatever the payload and whatever Redis does, the handler returns
    normally, leaves the sockets, rooms, subscription sets and the client
    counter alone, and sends either nothing or one delta to the channel's
    room; and the cache changes only when a delta is sent. *)
Theorem publication_handler_contained c channel message st :
  let out := Relay.on_message c channel message st in
  out.1 = Relay.Ok tt ∧
  Relay.sockets out.2 = Relay.sockets st ∧
  Relay.rooms out.2 = Relay.rooms st ∧
  Relay.socketSubscriptions out.2 = Relay.socketSubscriptions st ∧
  Relay.connectedClients (Relay.stats out.2) = Relay.connectedClients (Relay.stats st) ∧
  (Relay.sent out.2 = Relay.sent st ∨
   ∃ d, Relay.sent out.2 =
        Relay.sent st ++ [{| Relay.recipients := Relay.room_members channel st;
                             Relay.emitted := Relay.Delta d |}]) ∧
  (Relay.sent out.2 = Relay.sent st → Relay.redis out.2 = Relay.redis st).
Proof.
  intros out. subst out.
  pose proof (on_message_frame c channel message st) as H. cbv zeta in H.
  destruct H as (Hok & Hsk & Hrm & Hsubs & Hcc & Hsent & Hdb).
  repeat split; assumption.
Qed.

(** X2: A publication on a channel whose key is absent from the cache, or whose
    entry has expired, is broadcast in full. *)
Theorem cache_miss_broadcasts_full_state st t channel s :
  (∀ p e, Relay.redis st !! Relay.stateKey channel = Some (p, e) → e ≤ t) →
  Relay.sent (Relay.on_message (Relay.Redis.healthy t) channel (Relay.Encoded s) st).2
  = Relay.sent st ++
    [{| Relay.recipients := Relay.room_members channel st;
        Relay.emitted := Relay.Delta (GameDelta.of_state s) |}].
Proof.
  intros Hmiss. rewrite on_message_healthy by reflexivity.
  destruct st as [db sk rm subs stt out0 errs]. simpl in *.
  unfold Relay.Redis.GET. simpl.
  destruct (db !! Relay.stateKey channel) as [[p e]|] eqn:E; [|reflexivity].
  specialize (Hmiss p e eq_refl).
  destruct (Z.ltb_spec t e); [lia | reflexivity].
Qed.

Lemma cache_miss_broadcasts_full_state_witness :
  Relay.sent (Relay.on_message (Relay.Redis.healthy 70) "game1"
                (Relay.Encoded Sample.game1_next) Sample.relay_c1_cached).2
  = Relay.sent Sample.relay_c1_cached ++
    [{| Relay.recipients := {["c1"]};
        Relay.emitted := Relay.Delta (GameDelta.of_state Sample.game1_next) |}].
Proof.
  rewrite (cache_miss_broadcasts_full_state Sample.relay_c1_cached 70 "game1"
             Sample.game1_next).
  - vm_compute. reflexivity.
  - intros p e. vm_compute. intros H. injection H as _ <-. discriminate.
Defined.


(** ** Subscribing and unsubscribing *)

(** The state the subscribe loop leaves behind. *)
Lemma subscribe_loop_state sid ids : ∀ st S,
  Relay.socketSubscriptions st !! sid = Some S →
  ∃ st',
    Relay.forEach
      (λ gameId, Relay.bind (Relay.socket_join sid gameId)
                   (λ _, Relay.subscriptions_add sid gameId)) ids st
    = (Relay.Ok tt, st') ∧
    Relay.redis st' = Relay.redis st ∧
    Relay.sockets st' = Relay.sockets st ∧
    Relay.stats st' = Relay.stats st ∧
    Relay.sent st' = Relay.sent st ∧
    Relay.errors st' = Relay.errors st ∧
    Relay.socketSubscriptions st'
      = <[sid := list_to_set ids ∪ S]> (Relay.socketSubscriptions st) ∧
    ∀ g, Relay.rooms st' !! g =
           if bool_decide (g ∈ ids)
           then Some ({[sid]} ∪ Relay.room_members g st)
           else Relay.rooms st !! g.
Proof.
  induction ids as [|x ids IH]; intros st S HS.
  - exists st. simpl. repeat split; try reflexivity.
    rewrite union_empty_l_L. symmetry. apply insert_id. exact HS.
  - destruct st as [db sk rm m stt out errs]. simpl in HS.
    destruct (IH {| Relay.redis := db; Relay.sockets := sk;
                    Relay.rooms := <[x := {[sid]} ∪ default ∅ (rm !! x)]> rm;
                    Relay.socketSubscriptions := <[sid := {[x]} ∪ S]> m;
                    Relay.stats := stt; Relay.sent := out; Relay.errors := errs |}
                 ({[x]} ∪ S))
      as (st' & Hrun & Hdb & Hsk & Hstt & Hout & Herrs & Hsubs & Hrooms).
    { simpl. apply lookup_insert_eq. }
    exists st'. simpl in *.
    unfold Relay.bind, Relay.socket_join, Relay.subscriptions_add, Relay.modify,
      Relay.room_members. simpl. rewrite HS. simpl.
    unfold Relay.bind in Hrun. split; [exact Hrun|].
    do 5 (split; [assumption|]). split.
    + rewrite Hsubs, insert_insert_eq. f_equal. set_solver.
    + intros g. rewrite Hrooms. unfold Relay.room_members. simpl.
      destruct (decide (g = x)) as [->|Hne].
      * rewrite lookup_insert_eq. simpl.
        rewrite (bool_decide_eq_true_2 (x ∈ x :: ids)) by set_solver.
        case_bool_decide; [f_equal; set_solver | reflexivity].
      * rewrite lookup_insert_ne by congruence.
        repeat case_bool_decide; try reflexivity; set_solver.
Qed.

(** The state the unsubscribe loop leaves behind. *)
Lemma unsubscribe_loop_state sid ids : ∀ st S,
  Relay.socketSubscriptions st !! sid = Some S →
  ∃ st',
    Relay.forEach
      (λ gameId, Relay.bind (Relay.socket_leave sid gameId)
                   (λ _, Relay.subscriptions_delete sid gameId)) ids st
    = (Relay.Ok tt, st') ∧
    Relay.redis st' = Relay.redis st ∧
    Relay.sockets st' = Relay.sockets st ∧
    Relay.stats st' = Relay.stats st ∧
    Relay.sent st' = Relay.sent st ∧
    Relay.errors st' = Relay.errors st ∧
    Relay.socketSubscriptions st'
      = <[sid := S ∖ list_to_set ids]> (Relay.socketSubscriptions st) ∧
    ∀ g, Relay.room_members g st' =
           if bool_decide (g ∈ ids)
           then Relay.room_members g st ∖ {[sid]}
           else Relay.room_members g st.
Proof.
  induction ids as [|x ids IH]; intros st S HS.
  - exists st. simpl. repeat split; try reflexivity.
    rewrite difference_empty_L. symmetry. apply insert_id. exact HS.
  - destruct st as [db sk rm m stt out errs]. simpl in HS.
    destruct (IH {| Relay.redis := db; Relay.sockets := sk;
                    Relay.rooms := alter (λ members, members ∖ {[sid]}) x rm;
                    Relay.socketSubscriptions := <[sid := S ∖ {[x]}]> m;
                    Relay.stats := stt; Relay.sent := out; Relay.errors := errs |}
                 (S ∖ {[x]}))
      as (st' & Hrun & Hdb & Hsk & Hstt & Hout & Herrs & Hsubs & Hrooms).
    { simpl. apply lookup_insert_eq. }
    exists st'. simpl in *.
    unfold Relay.bind, Relay.socket_leave, Relay.subscriptions_delete, Relay.modify.
    simpl. rewrite HS. simpl.
    unfold Relay.bind in Hrun. split; [exact Hrun|].
    do 5 (split; [assumption|]). split.
    + rewrite Hsubs, insert_insert_eq. f_equal. set_solver.
    + intros g. rewrite Hrooms. unfold Relay.room_members. simpl.
      destruct (decide (g = x)) as [->|Hne].
      * rewrite lookup_alter_eq.
        rewrite (bool_decide_eq_true_2 (x ∈ x :: ids)) by set_solver.
        destruct (rm !! x); simpl; case_bool_decide; set_solver.
      * rewrite lookup_alter_ne by congruence.
        repeat case_bool_decide; try reflexivity; set_solver.
Qed.

(** The state a well-formed subscribe leaves behind. *)
Lemma on_subscribe_array sid ids st S :
  Relay.socketSubscriptions st !! sid = Some S →
  ∃ st',
    Relay.on_subscribe sid (Relay.Array ids) st = (Relay.Ok tt, st') ∧
    Relay.socketSubscriptions st'
      = <[sid := list_to_set ids ∪ S]> (Relay.socketSubscriptions st) ∧
    (∀ g, Relay.room_members g st' =
            if bool_decide (g ∈ ids)
            then {[sid]} ∪ Relay.room_members g st
            else Relay.room_members g st) ∧
    Relay.sent st' = Relay.sent st ++
      [{| Relay.recipients := {[sid]}; Relay.emitted := Relay.Subscribed ids |}] ∧
    Relay.redis st' = Relay.redis st ∧
    Relay.sockets st' = Relay.sockets st ∧
    Relay.stats st' = Relay.stats st.
Proof.
  intros HS.
  destruct (subscribe_loop_state sid ids st S HS)
    as (st1 & Hrun & Hdb & Hsk & Hstt & Hout & Herrs & Hsubs & Hrooms).
  exists (Relay.push_sent
            {| Relay.recipients := {[sid]}; Relay.emitted := Relay.Subscribed ids |} st1).
  unfold Relay.on_subscribe. simpl. unfold Relay.bind at 1. rewrite Hrun.
  split; [reflexivity|].
  destruct st1 as [db1 sk1 rm1 m1 stt1 out1 errs1]. simpl in *.
  split; [exact Hsubs|]. split.
  - intros g. unfold Relay.room_members at 1. simpl. rewrite Hrooms.
    case_bool_decide; reflexivity.
  - rewrite Hout. repeat split; assumption.
Qed.

(** X4: A well-formed subscribe of a socket that has its set returns normally,
    adds the games to the socket's set, puts the socket into the room of
    each game, leaves every other socket's set and every other room alone,
    and acknowledges with one [subscribed] event to the socket. *)
Theorem subscribe_joins_rooms sid ids st S :
  Relay.socketSubscriptions st !! sid = Some S →
  let out := Relay.on_subscribe sid (Relay.Array ids) st in
  out.1 = Relay.Ok tt ∧
  Relay.socketSubscriptions out.2 !! sid = Some (list_to_set ids ∪ S) ∧
  (∀ sid', sid' ≠ sid →
     Relay.socketSubscriptions out.2 !! sid' = Relay.socketSubscriptions st !! sid') ∧
  (∀ g, Relay.room_members g out.2 =
          if bool_decide (g ∈ ids)
          then {[sid]} ∪ Relay.room_members g st
          else Relay.room_members g st) ∧
  Relay.sent out.2 = Relay.sent st ++
    [{| Relay.recipients := {[sid]}; Relay.emitted := Relay.Subscribed ids |}] ∧
  Relay.redis out.2 = Relay.redis st ∧
  Relay.sockets out.2 = Relay.sockets st ∧
  Relay.stats out.2 = Relay.stats st.
Proof.
  intros HS out. subst out.
  destruct (on_subscribe_array sid ids st S HS)
    as (st' & Hrun & Hsubs & Hrooms & Hsent & Hdb & Hsk & Hstt).
  rewrite Hrun. simpl. split; [reflexivity|].
  split; [rewrite Hsubs; apply lookup_insert_eq|].
  split; [intros sid' Hne; rewrite Hsubs; apply lookup_insert_ne; congruence|].
  repeat split; assumption.
Qed.

Lemma subscribe_joins_rooms_witness :
  "c1" ∈ Relay.room_members "game2"
           (Relay.on_subscribe "c1" (Relay.Array ["game2"]) Sample.relay_c1).2.
Proof.
  assert (HS : Relay.socketSubscriptions Sample.relay_c1 !! "c1" = Some {["game1"]})
    by (vm_compute; reflexivity).
  destruct (subscribe_joins_rooms "c1" ["game2"] Sample.relay_c1 {["game1"]} HS)
    as (_ & _ & _ & Hrooms & _).
  rewrite Hrooms. rewrite bool_decide_eq_true_2 by set_solver. set_solver.
Defined.

(** X5: Subscribing to the same games twice leaves the subscription sets and
    the rooms as subscribing once does. *)
Theorem subscribe_idempotent sid ids st :
  is_Some (Relay.socketSubscriptions st !! sid) →
  let once := (Relay.on_subscribe sid (Relay.Array ids) st).2 in
  let twice := (Relay.on_subscribe sid (Relay.Array ids) once).2 in
  Relay.socketSubscriptions twice = Relay.socketSubscriptions once ∧
  ∀ g, Relay.room_members g twice = Relay.room_members g once.
Proof.
  intros [S HS] once twice.
  destruct (on_subscribe_array sid ids st S HS)
    as (st1 & Hrun1 & Hsubs1 & Hrooms1 & _).
  assert (Honce : once = st1) by (subst once; rewrite Hrun1; reflexivity).
  destruct (on_subscribe_array sid ids st1 (list_to_set ids ∪ S))
    as (st2 & Hrun2 & Hsubs2 & Hrooms2 & _).
  { rewrite Hsubs1. apply lookup_insert_eq. }
  assert (Htwice : twice = st2) by (subst twice; rewrite Honce, Hrun2; reflexivity).
  rewrite Htwice, Honce. split.
  - rewrite Hsubs2, Hsubs1, insert_insert_eq. f_equal. set_solver.
  - intros g. rewrite Hrooms2, Hrooms1. case_bool_decide; [set_solver | reflexivity].
Qed.

Lemma subscribe_idempotent_witness :
  Relay.socketSubscriptions
    (Relay.on_subscribe "c1" (Relay.Array ["game1"]) Sample.relay_c1).2
  = Relay.socketSubscriptions Sample.relay_c1.
Proof.
  assert (H : is_Some (Relay.socketSubscriptions
                         (Relay.on_connection "c1" Relay.init).2 !! "c1"))
    by (vm_compute; eauto).
  destruct (subscribe_idempotent "c1" ["game1"]
              (Relay.on_connection "c1" Relay.init).2 H) as [Hsubs _].
  exact Hsubs.
Defined.

(** The state a well-formed unsubscribe leaves behind. *)
Lemma on_unsubscribe_array sid ids st S :
  Relay.socketSubscriptions st !! sid = Some S →
  ∃ st',
    Relay.on_unsubscribe sid (Relay.Array ids) st = (Relay.Ok tt, st') ∧
    Relay.socketSubscriptions st'
      = <[sid := S ∖ list_to_set ids]> (Relay.socketSubscriptions st) ∧
    (∀ g, Relay.room_members g st' =
            if bool_decide (g ∈ ids)
            then Relay.room_members g st ∖ {[sid]}
            else Relay.room_members g st) ∧
    Relay.sent st' = Relay.sent st ∧
    Relay.redis st' = Relay.redis st ∧
    Relay.sockets st' = Relay.sockets st ∧
    Relay.stats st' = Relay.stats st.
Proof.
  intros HS.
  destruct (unsubscribe_loop_state sid ids st S HS)
    as (st1 & Hrun & Hdb & Hsk & Hstt & Hout & Herrs & Hsubs & Hrooms).
  exists st1. unfold Relay.on_unsubscribe. simpl.
  repeat split; assumption.
Qed.

(** X6: A well-formed unsubscribe of a socket that has its set returns
    normally, removes the games from the socket's set, takes the socket out
    of the room of each game and of no other room, keeps every other socket
    where it is, and emits nothing. *)
Theorem unsubscribe_leaves_rooms sid ids st S :
  Relay.socketSubscriptions st !! sid = Some S →
  let out := Relay.on_unsubscribe sid (Relay.Array ids) st in
  out.1 = Relay.Ok tt ∧
  Relay.socketSubscriptions out.2 !! sid = Some (S ∖ list_to_set ids) ∧
  (∀ sid', sid' ≠ sid →
     Relay.socketSubscriptions out.2 !! sid' = Relay.socketSubscriptions st !! sid') ∧
  (∀ g, Relay.room_members g out.2 =
          if bool_decide (g ∈ ids)
          then Relay.room_members g st ∖ {[sid]}
          else Relay.room_members g st) ∧
  Relay.sent out.2 = Relay.sent st ∧
  Relay.redis out.2 = Relay.redis st ∧
  Relay.sockets out.2 = Relay.sockets st ∧
  Relay.stats out.2 = Relay.stats st.
Proof.
  intros HS out. subst out.
  destruct (on_unsubscribe_array sid ids st S HS)
    as (st' & Hrun & Hsubs & Hrooms & Hsent & Hdb & Hsk & Hstt).
  rewrite Hrun. simpl. split; [reflexivity|].
  split; [rewrite Hsubs; apply lookup_insert_eq|].
  split; [intros sid' Hne; rewrite Hsubs; apply lookup_insert_ne; congruence|].
  repeat split; assumption.
Qed.

Lemma unsubscribe_leaves_rooms_witness :
  "c1" ∉ Relay.room_members "game1"
           (Relay.on_unsubscribe "c1" (Relay.Array ["game1"]) Sample.relay_c1).2.
Proof.
  assert (HS : Relay.socketSubscriptions Sample.relay_c1 !! "c1" = Some {["game1"]})
    by (vm_compute; reflexivity).
  destruct (unsubscribe_leaves_rooms "c1" ["game1"] Sample.relay_c1 {["game1"]} HS)
    as (_ & _ & _ & Hrooms & _).
  rewrite Hrooms. rewrite bool_decide_eq_true_2 by set_solver. set_solver.
Defined.

(** ** Delivery *)

Lemma deltas_to_snoc sid out recipients d :
  Relay.deltas_to sid
    (out ++ [{| Relay.recipients := recipients; Relay.emitted := Relay.Delta d |}])
  = Relay.deltas_to sid out ++ (if bool_decide (sid ∈ recipients) then [d] else []).
Proof.
  unfold Relay.deltas_to. rewrite omap_app. simpl.
  case_bool_decide; reflexivity.
Qed.

(** X7: Once a socket has subscribed to a game, whatever it did before, the next
    publication on that game's channel that Redis serves is delivered to it:
    the socket receives exactly one more delta, the one computed for the
    publication. *)
Theorem subscribed_socket_receives sid ids g st t s :
  is_Some (Relay.socketSubscriptions st !! sid) →
  g ∈ ids →
  let st1 := (Relay.on_subscribe sid (Relay.Array ids) st).2 in
  let out := (Relay.on_message (Relay.Redis.healthy t) g (Relay.Encoded s) st1).2 in
  Relay.deltas_to sid (Relay.sent out)
  = Relay.deltas_to sid (Relay.sent st) ++
    [Relay.calculateDelta s
       (Relay.Redis.GET t (Relay.stateKey g) (Relay.redis st)).1].
Proof.
  intros [S HS] Hg st1 out.
  destruct (on_subscribe_array sid ids st S HS)
    as (st' & Hrun & _ & Hrooms & Hsent & Hdb & _).
  assert (Hst1 : st1 = st') by (subst st1; rewrite Hrun; reflexivity).
  subst out. rewrite Hst1, on_message_healthy by reflexivity.
  destruct st' as [db1 sk1 rm1 m1 stt1 out1 errs1]. simpl in *.
  rewrite deltas_to_snoc. specialize (Hrooms g).
  rewrite bool_decide_eq_true_2 in Hrooms by exact Hg.
  assert (Hin : sid ∈ default ∅ (rm1 !! g)).
  { unfold Relay.room_members in Hrooms at 1. simpl in Hrooms.
    rewrite Hrooms. set_solver. }
  unfold Relay.room_members at 1. simpl.
  rewrite bool_decide_eq_true_2 by exact Hin.
  subst out1 db1. unfold Relay.deltas_to. rewrite omap_app. simpl.
  rewrite app_nil_r. reflexivity.
Qed.

Lemma subscribed_socket_receives_witness :
  Relay.deltas_to "c1"
    (Relay.sent
       (Relay.on_message (Relay.Redis.healthy 5) "game1" (Relay.Encoded Sample.game1)
          (Relay.on_subscribe "c1" (Relay.Array ["game1"])
             (Relay.on_unsubscribe "c1" (Relay.Array ["game1"]) Sample.relay_c1).2).2).2)
  = [GameDelta.of_state Sample.game1].
Proof.
  assert (H : is_Some (Relay.socketSubscriptions
             (Relay.on_unsubscribe "c1" (Relay.Array ["game1"]) Sample.relay_c1).2 !! "c1"))
    by (vm_compute; eauto).
  assert (Hg : "game1" ∈ ["game1"]) by set_solver.
  pose proof (subscribed_socket_receives "c1" ["game1"] "game1"
                (Relay.on_unsubscribe "c1" (Relay.Array ["game1"]) Sample.relay_c1).2
                5 Sample.game1 H Hg) as Hrecv.
  simpl in Hrecv. exact Hrecv.
Defined.

(** X8: After a socket has unsubscribed from a game, a publication on that
    game's channel brings it nothing, whatever the payload and whatever
    Redis does. *)
Theorem unsubscribed_socket_receives_nothing sid ids g st c message :
  is_Some (Relay.socketSubscriptions st !! sid) →
  g ∈ ids →
  let st1 := (Relay.on_unsubscribe sid (Relay.Array ids) st).2 in
  let out := (Relay.on_message c g message st1).2 in
  Relay.deltas_to sid (Relay.sent out) = Relay.deltas_to sid (Relay.sent st).
Proof.
  intros [S HS] Hg st1 out.
  destruct (on_unsubscribe_array sid ids st S HS)
    as (st' & Hrun & _ & Hrooms & Hsent & _).
  assert (Hst1 : st1 = st') by (subst st1; rewrite Hrun; reflexivity).
  subst out.
  pose proof (on_message_frame c g message st1) as Hout.
  cbv zeta in Hout. destruct Hout as (_ & _ & _ & _ & _ & [Hsame | [d Hone]] & _).
  - rewrite Hsame, Hst1, Hsent. reflexivity.
  - rewrite Hone, deltas_to_snoc, Hst1, Hsent, Hrooms.
    rewrite (bool_decide_eq_true_2 (g ∈ ids)) by exact Hg.
    rewrite bool_decide_eq_false_2 by set_solver.
    apply app_nil_r.
Qed.

Lemma unsubscribed_socket_receives_nothing_witness :
  Relay.deltas_to "c1"
    (Relay.sent
       (Relay.on_message (Relay.Redis.healthy 5) "game1" (Relay.Encoded Sample.game1)
          (Relay.on_unsubscribe "c1" (Relay.Array ["game1"]) Sample.relay_c1).2).2)
  = [].
Proof.
  assert (H : is_Some (Relay.socketSubscriptions Sample.relay_c1 !! "c1"))
    by (vm_compute; eauto).
  assert (Hg : "game1" ∈ ["game1"]) by set_solver.
  exact (unsubscribed_socket_receives_nothing "c1" ["game1"] "game1" Sample.relay_c1
           (Relay.Redis.healthy 5) (Relay.Encoded Sample.game1) H Hg).
Defined.

(** ** Invariants of the relay *)

Lemma broadcasts_snoc out e :
  Relay.broadcasts (out ++ [e]) =
  Relay.broadcasts out + match Relay.emitted e with Relay.Delta _ => 1 | _ => 0 end.
Proof.
  unfold Relay.broadcasts. rewrite omap_app, length_app. simpl.
  destruct (Relay.emitted e); simpl; lia.
Qed.

(** What one publication does to the counters. *)
Lemma on_message_counters c channel message st :
  let out := (Relay.on_message c channel message st).2 in
  let received := Relay.messagesReceived (Relay.stats st) in
  let broadcast := Relay.messagesBroadcast (Relay.stats st) in
  (Relay.broadcasts (Relay.sent out) = Relay.broadcasts (Relay.sent st) ∧
   Relay.messagesBroadcast (Relay.stats out) = broadcast ∧
   received ≤ Relay.messagesReceived (Relay.stats out)) ∨
  (Relay.broadcasts (Relay.sent out) = Relay.broadcasts (Relay.sent st) + 1 ∧
   Relay.messagesBroadcast (Relay.stats out) = broadcast + 1 ∧
   Relay.messagesReceived (Relay.stats out) = received + 1).
Proof.
  destruct st as [db sk rm subs [cc mr mb] out0 errs], message as [raw|s].
  { left. simpl. repeat split; lia. }
  unfold Relay.on_message, Relay.try_catch, Relay.bind, Relay.redisClient_get,
    Relay.redisClient_setEx.
  destruct (Relay.Redis.get_fulfilled c), (Relay.Redis.setEx_fulfilled c); simpl;
    try (left; repeat split; lia).
  right. rewrite broadcasts_snoc. simpl. repeat split; reflexivity.
Qed.

(** X9: In every state the relay reaches, [connectedClients] is the number of
    connected sockets, [messagesBroadcast] is the number of deltas emitted,
    and no more messages were broadcast than received. *)
Theorem relay_counters st :
  Relay.reachable st →
  Relay.connectedClients (Relay.stats st) = Z.of_nat (size (Relay.sockets st)) ∧
  Relay.messagesBroadcast (Relay.stats st) = Relay.broadcasts (Relay.sent st) ∧
  Relay.messagesBroadcast (Relay.stats st) ≤ Relay.messagesReceived (Relay.stats st).
Proof.
  induction 1 as [|st ev st' Hreach (IHc & IHb & IHr) Hen Hstep].
  - vm_compute. repeat split; try reflexivity. discriminate.
  - pose proof (reachable_registry st Hreach) as Hdom.
    destruct ev as [sid|sid gameIds|sid gameIds|sid|c channel message];
      simpl in Hen, Hstep.
    + apply bool_decide_eq_true in Hen.
      destruct st as [db sk rm subs [cc mr mb] out errs].
      inversion Hstep; subst; clear Hstep. simpl in *.
      rewrite size_union by set_solver. rewrite size_singleton.
      repeat split; lia.
    + apply bool_decide_eq_true in Hen.
      assert (Hsome : is_Some (Relay.socketSubscriptions st !! sid))
        by (apply elem_of_dom; rewrite Hdom; exact Hen).
      destruct gameIds as [| |b|x|s| |ids|bytes];
        try (destruct st; inversion Hstep; subst; simpl in *;
             rewrite broadcasts_snoc; simpl; repeat split; lia).
      destruct Hsome as [S HS].
      destruct (on_subscribe_array sid ids st S HS)
        as (st2 & Hrun & _ & _ & Hsent & _ & Hsk & Hstt).
      rewrite Hrun in Hstep. inversion Hstep; subst st2.
      rewrite Hsent, Hsk, Hstt, broadcasts_snoc. simpl. repeat split; lia.
    + apply bool_decide_eq_true in Hen.
      assert (Hsome : is_Some (Relay.socketSubscriptions st !! sid))
        by (apply elem_of_dom; rewrite Hdom; exact Hen).
      destruct gameIds as [| |b|x|s| |ids|bytes];
        try (destruct st; inversion Hstep; subst; simpl in *;
             rewrite broadcasts_snoc; simpl; repeat split; lia).
      destruct Hsome as [S HS].
      destruct (on_unsubscribe_array sid ids st S HS)
        as (st2 & Hrun & _ & _ & Hsent & _ & Hsk & Hstt).
      rewrite Hrun in Hstep. inversion Hstep; subst st2.
      rewrite Hsent, Hsk, Hstt. repeat split; lia.
    + apply bool_decide_eq_true in Hen.
      destruct st as [db sk rm subs [cc mr mb] out errs].
      inversion Hstep; subst; clear Hstep. simpl in *.
      assert (Hsize : size sk = S (size (sk ∖ {[sid]}))).
      { rewrite (union_difference_singleton_L sid sk Hen) at 1.
        rewrite size_union by set_solver. rewrite size_singleton. reflexivity. }
      repeat split; lia.
    + destruct (on_message_frame c channel message st)
        as (_ & Hsk & _ & _ & Hcc & _).
      pose proof (on_message_counters c channel message st) as Hcnt.
      cbv zeta in Hcnt. rewrite Hstep in Hsk, Hcc, Hcnt. simpl in Hsk, Hcc, Hcnt.
      rewrite Hsk, Hcc. destruct Hcnt as [(H1 & H2 & H3)|(H1 & H2 & H3)];
        repeat split; lia.
Qed.

Lemma relay_counters_witness :
  Relay.connectedClients (Relay.stats Sample.relay_c1) = 1.
Proof.
  destruct (relay_counters Sample.relay_c1 sample_relay_reachable) as [H _].
  rewrite H. vm_compute. reflexivity.
Defined.

(** X10: In every state the relay reaches, a game recorded in a socket's
    subscription set has that socket in its room, so the record never
    promises a delivery the rooms would not make; and only connected sockets
    are members of rooms. *)
Theorem subscriptions_have_rooms st :
  Relay.reachable st →
  (∀ sid S g, Relay.socketSubscriptions st !! sid = Some S → g ∈ S →
              sid ∈ Relay.room_members g st) ∧
  (∀ g sid, sid ∈ Relay.room_members g st → sid ∈ Relay.sockets st).
Proof.
  induction 1 as [|st ev st' Hreach (IHs & IHr) Hen Hstep].
  - split.
    + intros sid S g H. vm_compute in H. discriminate.
    + intros g sid H. vm_compute in H. discriminate.
  - pose proof (reachable_registry st Hreach) as Hdom.
    destruct ev as [sid0|sid0 gameIds|sid0 gameIds|sid0|c channel message];
      simpl in Hen, Hstep.
    + destruct st as [db sk rm subs stt out errs].
      inversion Hstep; subst; clear Hstep.
      unfold Relay.room_members in *. simpl in *. split.
      * intros sid S g HS Hg. destruct (decide (sid = sid0)) as [->|Hne].
        -- rewrite lookup_insert_eq in HS. injection HS as <-. set_solver.
        -- rewrite lookup_insert_ne in HS by congruence. eauto.
      * intros g sid Hin. apply IHr in Hin. set_solver.
    + apply bool_decide_eq_true in Hen.
      assert (Hsome : is_Some (Relay.socketSubscriptions st !! sid0))
        by (apply elem_of_dom; rewrite Hdom; exact Hen).
      destruct gameIds as [| |b|x|s| |ids|bytes];
        try (destruct st; inversion Hstep; subst; split; assumption).
      destruct Hsome as [S0 HS0].
      destruct (on_subscribe_array sid0 ids st S0 HS0)
        as (st2 & Hrun & Hsubs & Hrooms & _ & _ & Hsk & _).
      rewrite Hrun in Hstep. inversion Hstep; subst st2. split.
      * intros sid S g HS Hg. rewrite Hrooms. rewrite Hsubs in HS.
        destruct (decide (sid = sid0)) as [->|Hne].
        -- rewrite lookup_insert_eq in HS. injection HS as <-.
           case_bool_decide as Hids; [set_solver|].
           apply (IHs sid0 S0 g HS0). set_solver.
        -- rewrite lookup_insert_ne in HS by congruence.
           pose proof (IHs sid S g HS Hg). case_bool_decide; set_solver.
      * intros g sid. rewrite Hrooms, Hsk. intros Hin.
        case_bool_decide; [|eauto].
        apply elem_of_union in Hin as [Hin|Hin]; [|eauto]. set_solver.
    + apply bool_decide_eq_true in Hen.
      assert (Hsome : is_Some (Relay.socketSubscriptions st !! sid0))
        by (apply elem_of_dom; rewrite Hdom; exact Hen).
      destruct gameIds as [| |b|x|s| |ids|bytes];
        try (destruct st; inversion Hstep; subst; split; assumption).
      destruct Hsome as [S0 HS0].
      destruct (on_unsubscribe_array sid0 ids st S0 HS0)
        as (st2 & Hrun & Hsubs & Hrooms & _ & _ & Hsk & _).
      rewrite Hrun in Hstep. inversion Hstep; subst st2. split.
      * intros sid S g HS Hg. rewrite Hrooms. rewrite Hsubs in HS.
        destruct (decide (sid = sid0)) as [->|Hne].
        -- rewrite lookup_insert_eq in HS. injection HS as <-.
           apply elem_of_difference in Hg as [Hg Hnot].
           rewrite bool_decide_eq_false_2 by set_solver. eauto.
        -- rewrite lookup_insert_ne in HS by congruence.
           pose proof (IHs sid S g HS Hg). case_bool_decide; set_solver.
      * intros g sid. rewrite Hrooms, Hsk. intros Hin.
        case_bool_decide; [|eauto]. apply (IHr g). set_solver.
    + destruct st as [db sk rm subs stt out errs].
      inversion Hstep; subst; clear Hstep.
      unfold Relay.room_members in *. simpl in *. split.
      * intros sid S g HS Hg. destruct (decide (sid = sid0)) as [->|Hne].
        -- rewrite lookup_delete_eq in HS. discriminate.
        -- rewrite lookup_delete_ne in HS by congruence.
           pose proof (IHs sid S g HS Hg) as Hin. rewrite lookup_fmap.
           destruct (rm !! g); simpl in *; set_solver.
      * intros g sid. rewrite lookup_fmap. specialize (IHr g sid).
        destruct (rm !! g); simpl in *; set_solver.
    + destruct (on_message_frame c channel message st)
        as (_ & Hsk & Hrm & Hsubs & _).
      rewrite Hstep in Hsk, Hrm, Hsubs. simpl in Hsk, Hrm, Hsubs.
      unfold Relay.room_members in *. rewrite Hrm, Hsubs, Hsk. split; assumption.
Qed.

Lemma subscriptions_have_rooms_witness :
  "c1" ∈ Relay.room_members "game1" Sample.relay_c1.
Proof.
  destruct (subscriptions_have_rooms Sample.relay_c1 sample_relay_reachable) as [H _].
  apply (H "c1" {["game1"]} "game1"); [vm_compute; reflexivity | set_solver].
Defined.

(** ** The initial state served over Socket.IO *)

(** X11: The handler calls [gameIds.map] without testing for an array.  For an
    array of game ids the reply is a success with one state per id, in the
    order asked and each under the id asked for, with the odds 2.5, 2.8 and
    3.2 whatever has been published.  A binary argument, which arrives as a
    [Buffer], gets a success reply too, holding as many bytes as were sent
    and no game state.  Every other argument ([undefined], [null], a
    boolean, a number, a string, an object that is not an array) gets a
    failure reply. *)
Theorem getInitialState_serves_mock_data gameIds oracle :
  match Relay.getInitialState gameIds oracle with
  | Relay.Success data =>
      Relay.Array_isArray gameIds = true ∧
      GameState.id <$> data = Relay.items_of gameIds ∧
      Forall (λ s, GameState.homeOdds s = Sample.odds_2_5 ∧
                   GameState.awayOdds s = Sample.odds_2_8 ∧
                   GameState.drawOdds s = Sample.odds_3_2) data
  | Relay.SuccessBytes data =>
      ∃ bytes, gameIds = Relay.Buffer bytes ∧ length data = length bytes
  | Relay.Failure _ =>
      Relay.Array_isArray gameIds = false ∧ ∀ bytes, gameIds ≠ Relay.Buffer bytes
  end.
Proof.
  destruct gameIds as [| |b|x|s| |ids|bytes]; simpl;
    try (split; [reflexivity | discriminate]).
  - split; [reflexivity|].
    generalize oracle. clear oracle.
    induction ids as [|g ids IH]; intros oracle; simpl.
    + split; [reflexivity | constructor].
    + destruct (IH (λ i, oracle (S i))) as [Hids Hodds]. split.
      * f_equal. exact Hids.
      * constructor; [|exact Hodds]. vm_compute. repeat split; reflexivity.
  - exists bytes. split; [reflexivity|]. apply length_fmap.
Qed.

(** * Further properties of the clients *)

(** ** applyDelta *)

(** X12: Applying a delta a second time changes no game: a delta delivered twice
    does no harm beyond the update counter. *)
Theorem applyDelta_idempotent delta v :
  Client.games (Client.applyDelta delta (Client.applyDelta delta v))
  = Client.games (Client.applyDelta delta v).
Proof.
  simpl. unfold Client.patch.
  destruct (Client.games v !! GameDelta.id delta) as [game|] eqn:Hlook.
  - rewrite lookup_insert_eq, insert_insert_eq. f_equal.
    destruct delta as [i lu ht at_ [hs|] [as_|] [ho|] [ao|] [do_|]]; reflexivity.
  - rewrite Hlook. reflexivity.
Qed.

(** X13: Deltas whose identifiers are not names of properties of
    [Object.prototype] never add or remove a game, however many are applied
    to a [games] object: its own property names stay the same. *)
Theorem applyAll_keeps_games deltas : ∀ games,
  GamesObject.proto games = None →
  Forall (λ delta, GamesObject.ordinary (GameDelta.id delta)) deltas →
  dom (GamesObject.own (GamesObject.patchAll deltas games)) = dom (GamesObject.own games) ∧
  GamesObject.proto (GamesObject.patchAll deltas games) = None.
Proof.
  induction deltas as [|d ds IH]; intros games Hproto Hall.
  - split; [reflexivity | exact Hproto].
  - apply Forall_cons in Hall as [Hord Hall].
    change (GamesObject.patchAll (d :: ds) games)
      with (GamesObject.patchAll ds (GamesObject.patch d games)).
    assert (Hstep : dom (GamesObject.own (GamesObject.patch d games))
                      = dom (GamesObject.own games) ∧
                    GamesObject.proto (GamesObject.patch d games) = None).
    { unfold GamesObject.patch. rewrite get_ordinary by assumption.
      destruct (GamesObject.own games !! GameDelta.id d) as [e|] eqn:Hlook; simpl.
      - split; [|reflexivity]. rewrite dom_insert_L.
        apply subseteq_union_1_L, singleton_subseteq_l, elem_of_dom. eauto.
      - split; [reflexivity | exact Hproto]. }
    destruct Hstep as [Hdom Hproto1].
    destruct (IH _ Hproto1 Hall) as [Hdom2 Hproto2].
    split; [congruence | exact Hproto2].
Qed.

Lemma applyAll_keeps_games_witness :
  dom (GamesObject.own
         (GamesObject.patchAll
            [Relay.calculateDelta Sample.game1_next (Some Sample.game1);
             GameDelta.of_state (Relay.mock_state "game2"
                                   {| Relay.homeDraw := 0; Relay.awayDraw := 0;
                                      Relay.clock := 1300 |})]
            (GamesObject.of_games {["game1" := Sample.game1]})))
  = dom (GamesObject.own (GamesObject.of_games {["game1" := Sample.game1]})).
Proof.
  refine (proj1 (applyAll_keeps_games _ _ _ _)).
  - reflexivity.
  - repeat constructor; apply (bool_decide_unpack _); vm_compute; exact I.
Defined.



(** X15: A field that did not change between the relay's cached snapshot and the
    new one is left as the client has it, whether or not the client's value
    is the cached one: a difference between client and cache in that field
    outlives the delta. *)
Theorem unchanged_field_keeps_client_value games game previous s f :
  games !! GameState.id s = Some game →
  Js.strict_neq (GameState.get f s) (GameState.get f previous) = false →
  ∃ game',
    Client.patch (Relay.calculateDelta s (Some previous)) games !! GameState.id s
      = Some game' ∧
    GameState.get f game' = GameState.get f game.
Proof.
  intros Hlook Hsame. unfold Client.patch. simpl. rewrite Hlook.
  rewrite lookup_insert_eq. eexists. split; [reflexivity|].
  destruct f; simpl in *; try reflexivity; unfold Relay.changed;
    apply negb_false_iff in Hsame; rewrite Hsame; reflexivity.
Qed.

Lemma unchanged_field_keeps_client_value_witness :
  ∃ game',
    Client.patch (Relay.calculateDelta Sample.game1_next (Some Sample.game1_next))
      {["game1" := Sample.game1]} !! "game1" = Some game' ∧
    GameState.get HomeOdds game' = GameState.get HomeOdds Sample.game1.
Proof.
  apply (unchanged_field_keeps_client_value {["game1" := Sample.game1]}
           Sample.game1 Sample.game1_next Sample.game1_next HomeOdds);
    vm_compute; reflexivity.
Defined.

(** ** The initial state on the client *)

Lemma gamesMap_acc l : ∀ (m : gmap string GameState.t) k game,
  foldl (λ m game, <[GameState.id game := game]> m) m l !! k = Some game →
  m !! k = Some game ∨ (GameState.id game = k ∧ game ∈ l).
Proof.
  induction l as [|x l IH]; intros m k game H; simpl in H.
  - by left.
  - apply IH in H as [H|[Hid Hin]].
    + destruct (decide (GameState.id x = k)) as [<-|Hne].
      * rewrite lookup_insert_eq in H. injection H as <-. right. split; [reflexivity|].
        apply list_elem_of_here.
      * rewrite lookup_insert_ne in H by exact Hne. by left.
    + right. split; [exact Hid|]. by apply list_elem_of_further.
Qed.

Lemma gamesMap_acc_some l : ∀ (m : gmap string GameState.t) k,
  is_Some (m !! k) ∨ k ∈ GameState.id <$> l →
  is_Some (foldl (λ m game, <[GameState.id game := game]> m) m l !! k).
Proof.
  induction l as [|x l IH]; intros m k H; simpl.
  - destruct H as [H|H]; [exact H | inversion H].
  - apply IH. destruct (decide (GameState.id x = k)) as [<-|Hne].
    + left. rewrite lookup_insert_eq. eauto.
    + destruct H as [H|H].
      * left. rewrite lookup_insert_ne by exact Hne. exact H.
      * right. simpl in H. apply elem_of_cons in H as [H|H]; [congruence | exact H].
Qed.

(** X16: The object built from an initial-state response in which no game has
    the identifier [__proto__] holds exactly the identifiers of the
    response, each game under its own identifier; when an identifier occurs
    twice, the later game is the one kept.  A game whose identifier is
    [__proto__] is not stored: it becomes the prototype of the object. *)
Theorem gamesMap_by_identifier initialGames :
  Forall (λ game, GameState.id game ≠ "__proto__") initialGames →
  let games := GamesObject.gamesMap initialGames in
  GamesObject.proto games = None ∧
  (∀ k e, GamesObject.own games !! k = Some e →
          ∃ game, e = GamesObject.Game game ∧ GameState.id game = k ∧
                  game ∈ initialGames) ∧
  (∀ k, is_Some (GamesObject.own games !! k) ↔ k ∈ GameState.id <$> initialGames) ∧
  (∀ game, GameState.id game ≠ "__proto__" →
           GamesObject.own (GamesObject.gamesMap (initialGames ++ [game]))
             !! GameState.id game = Some (GamesObject.Game game)) ∧
  (∀ game, GameState.id game = "__proto__" →
           GamesObject.gamesMap (initialGames ++ [game])
           = {| GamesObject.own := GamesObject.own games;
                GamesObject.proto := Some game |}).
Proof.
  intros Hall games. subst games. rewrite (gamesMap_refines _ Hall).
  unfold GamesObject.of_games, Client.gamesMap. simpl.
  split; [reflexivity|]. split; [|split; [|split]].
  - intros k e H. rewrite lookup_fmap in H.
    destruct (foldl _ _ _ !! k) as [game|] eqn:Hlook; [|discriminate H].
    injection H as <-. exists game. split; [reflexivity|].
    apply gamesMap_acc in Hlook as [Hlook|[Hid Hin]]; [|by split].
    rewrite lookup_empty in Hlook. discriminate.
  - intros k. rewrite lookup_fmap, fmap_is_Some. split.
    + intros [game H]. apply gamesMap_acc in H as [H|[Hid Hin]].
      * rewrite lookup_empty in H. discriminate.
      * subst k. apply list_elem_of_fmap. eauto.
    + intros H. apply gamesMap_acc_some. by right.
  - intros game Hne. unfold GamesObject.gamesMap. rewrite foldl_app. simpl.
    unfold GamesObject.assign at 1.
    destruct (String.eqb_spec (GameState.id game) "__proto__"); [contradiction|].
    simpl. apply lookup_insert_eq.
  - intros game Hid. unfold GamesObject.gamesMap. rewrite foldl_app. simpl.
    unfold GamesObject.assign at 1.
    destruct (String.eqb_spec (GameState.id game) "__proto__"); [|contradiction].
    fold (GamesObject.gamesMap initialGames). rewrite (gamesMap_refines _ Hall).
    reflexivity.
Qed.

Lemma gamesMap_by_identifier_witness :
  GamesObject.own (GamesObject.gamesMap ([Sample.game1] ++ [Sample.game1_next])) !! "game1"
  = Some (GamesObject.Game Sample.game1_next).
Proof.
  assert (Hall : Forall (λ game, GameState.id game ≠ "__proto__") [Sample.game1])
    by (repeat constructor; discriminate).
  destruct (gamesMap_by_identifier [Sample.game1] Hall) as (_ & _ & _ & H & _).
  apply (H Sample.game1_next). discriminate.
Defined.

(** ** Timers of the raw-WebSocket page *)

Ltac page_eval_all :=
  cbv beta iota zeta delta
    [WsPage.step WsPage.onopen WsPage.onopen_of WsPage.onmessage WsPage.onerror WsPage.onclose
     WsPage.connect WsPage.stopPolling WsPage.startPolling WsPage.poll
     WsPage.poll_settled WsPage.state_settled WsPage.setGames WsPage.applyDelta
     WsPage.handleUnsubscribe WsPage.sendIfOpen WsPage.cleanup WsPage.rerun_effect
     WsPage.seq WsPage.update WsPage.emit WsPage.skip
     WsPage.set_view WsPage.set_connectionType WsPage.set_subscribedGames
     WsPage.set_wsRef WsPage.set_pollingRef WsPage.set_pollingTimeoutRef
     WsPage.set_reconnectTimeoutRef WsPage.set_reconnectAttemptsRef
     WsPage.set_pollingFailuresRef
     WsPage.view WsPage.connectionType WsPage.subscribedGames WsPage.wsRef
     WsPage.pollingRef WsPage.pollingTimeoutRef WsPage.reconnectTimeoutRef
     WsPage.reconnectAttemptsRef WsPage.pollingFailuresRef
     fst snd app].

Lemma pow2_succ_ge n : 0 ≤ n → 2 ≤ 2 ^ (n + 1).
Proof.
  intros Hn. replace (n + 1) with (Z.succ n) by lia.
  rewrite Z.pow_succ_r by exact Hn.
  pose proof (Z.pow_pos_nonneg 2 n ltac:(lia) Hn). lia.
Qed.

(** One event keeps both failure counters non-negative and sets timers
    with these delays only. *)
Lemma step_timers ev st :
  0 ≤ WsPage.reconnectAttemptsRef st →
  0 ≤ WsPage.pollingFailuresRef st →
  0 ≤ WsPage.reconnectAttemptsRef (WsPage.step ev st).1 ∧
  0 ≤ WsPage.pollingFailuresRef (WsPage.step ev st).1 ∧
  Forall (λ a, match a with
               | WsPage.SetTimeoutConnect d => d = 2000 ∨ d = 4000
               | WsPage.SetTimeoutPoll d => 2000 ≤ d ≤ 30000
               | _ => True
               end) (WsPage.step ev st).2.
Proof.
  destruct st as [v ct sg ws pr pt rt ra pf]. simpl. intros Hra Hpf.
  destruct ev as [|m| | | |r|o| |g].
  - page_eval_all. repeat split; try lia. repeat constructor.
  - destruct m as [g0|[ds|]|d|]; page_eval_all;
      try (fold WsPage.applyDelta; rewrite forEach_applyDelta); page_eval_all;
      repeat split; try lia; repeat constructor.
  - page_eval_all. repeat split; try lia. repeat constructor.
  - page_eval_all. destruct (Z.leb_spec 3 (ra + 1)).
    + destruct pr; page_eval_all; repeat split; try lia; repeat constructor.
    + page_eval_all. repeat split; try lia. constructor; [|constructor].
      assert (Hcases : ra = 0 ∨ ra = 1) by lia.
      destruct Hcases as [-> | ->]; [left | right]; reflexivity.
  - destruct ws as [[]|], pt; page_eval_all; repeat split; try lia; repeat constructor.
  - destruct r as [g0|], pr; page_eval_all; repeat split; try lia; repeat constructor.
  - destruct o as [[ds|]|]; page_eval_all;
      try (fold WsPage.applyDelta; rewrite forEach_applyDelta); page_eval_all;
      destruct pr; page_eval_all; repeat split; try lia; repeat constructor;
      pose proof (pow2_succ_ge pf Hpf); lia.
  - destruct pr; page_eval_all; repeat split; try lia; repeat constructor.
  - destruct ws as [[]|], pt, rt; page_eval_all;
      repeat split; try lia; repeat constructor.
Qed.

Lemma run_timers evs : ∀ st,
  0 ≤ WsPage.reconnectAttemptsRef st →
  0 ≤ WsPage.pollingFailuresRef st →
  Forall (λ a, match a with
               | WsPage.SetTimeoutConnect d => d = 2000 ∨ d = 4000
               | WsPage.SetTimeoutPoll d => 2000 ≤ d ≤ 30000
               | _ => True
               end) (WsPage.run evs st).2.
Proof.
  induction evs as [|ev evs IH]; intros st Hra Hpf; [constructor|].
  destruct (step_timers ev st Hra Hpf) as (Hra1 & Hpf1 & Hstep).
  specialize (IH _ Hra1 Hpf1). simpl. unfold WsPage.seq.
  destruct (WsPage.step ev st) as [st1 a1]. simpl in *.
  destruct (WsPage.run evs st1) as [st2 a2]. simpl in *.
  apply Forall_app. split; assumption.
Qed.

(** X17: Whatever happens in a session, a reconnect is only ever scheduled after
    2000 ms or after 4000 ms: the first delay is not the base of 1000 ms,
    and the cap of 5000 ms is never reached. *)
Theorem reconnect_waits_2000_or_4000 evs :
  Forall (λ a, match a with
               | WsPage.SetTimeoutConnect d => d = 2000 ∨ d = 4000
               | _ => True
               end) (WsPage.run evs WsPage.mounted).2.
Proof.
  eapply Forall_impl; [apply run_timers; vm_compute; discriminate|].
  intros [] H; try exact I. exact H.
Qed.

(** X18: Whatever happens in a session, a poll is only ever retried after a
    delay between 2000 ms and 30000 ms. *)
Theorem poll_retry_waits_between_2000_and_30000 evs :
  Forall (λ a, match a with
               | WsPage.SetTimeoutPoll d => 2000 ≤ d ≤ 30000
               | _ => True
               end) (WsPage.run evs WsPage.mounted).2.
Proof.
  eapply Forall_impl; [apply run_timers; vm_compute; discriminate|].
  intros [] H; try exact I. exact H.
Qed.

(** ** Transports of the raw-WebSocket page *)

(** X19: As long as the subscription set is not changed, the session never has a
    socket and a poll loop at once, and while it has a socket or waits to
    reconnect no poll timer is pending. *)
Theorem one_transport_at_a_time evs :
  forallb WsPage.transport evs = true →
  WsPage.admissible evs WsPage.mounted = true →
  let st := (WsPage.run evs WsPage.mounted).1 in
  ¬ (WsPage.pollingRef st = true ∧ is_Some (WsPage.wsRef st)) ∧
  (WsPage.pollingRef st = false → WsPage.pollingTimeoutRef st = None).
Proof.
  intros Htr Hadm st.
  destruct (run_phases evs WsPage.mounted (or_introl mounted_pushing) Htr Hadm)
    as [(Hpr & Hpt & _)|(Hpr & _ & Hws & _)]; fold st in Hpr, Hpt || fold st in Hpr, Hws.
  - split; [intros [H _]; congruence | intros _; exact Hpt].
  - split; [intros [_ [w H]]; congruence | intros H; congruence].
Qed.

Lemma one_transport_at_a_time_witness :
  let st := (WsPage.run [WsPage.Onclose; WsPage.ReconnectTimeout; WsPage.Onopen]
               WsPage.mounted).1 in
  ¬ (WsPage.pollingRef st = true ∧ is_Some (WsPage.wsRef st)).
Proof.
  intros st.
  assert (Htr : forallb WsPage.transport
                  [WsPage.Onclose; WsPage.ReconnectTimeout; WsPage.Onopen] = true)
    by reflexivity.
  assert (Hadm : WsPage.admissible
                   [WsPage.Onclose; WsPage.ReconnectTimeout; WsPage.Onopen]
                   WsPage.mounted = true) by (vm_compute; reflexivity).
  destruct (one_transport_at_a_time _ Htr Hadm) as [H _]. exact H.
Defined.


(** X21: Unsubscribing removes the game from the subscription set and from the
    games shown, and a delta for that game that arrives afterwards does not
    bring it back, unless the game's identifier is the name of a property
    of [Object.prototype]: then the delta puts an entry under it again. *)
Theorem unsubscribed_game_stays_away (games : GamesObject.t) delta subscribed :
  let gameId := GameDelta.id delta in
  let games1 := GamesObject.without gameId games in
  (gameId ∉ WsPage.Set_delete gameId subscribed) ∧
  GamesObject.own games1 !! gameId = None ∧
  (GamesObject.ordinary gameId → GamesObject.patch delta games1 = games1) ∧
  (gameId ∈ GamesObject.prototype_names →
   is_Some (GamesObject.own (GamesObject.patch delta games1) !! gameId)).
Proof.
  intros gameId games1.
  assert (Hnone : GamesObject.own games1 !! gameId = None)
    by apply lookup_delete_eq.
  split; [|split; [exact Hnone|split]].
  - unfold WsPage.Set_delete. intros Hin.
    apply list_elem_of_filter in Hin as [Hne _]. congruence.
  - intros Hord. apply applyDelta_ignores_unknown; [reflexivity | exact Hnone | exact Hord].
  - intros Hin. unfold GamesObject.patch, GamesObject.get. fold gameId.
    rewrite Hnone. simpl.
    destruct (String.eqb gameId "__proto__"); simpl;
      [rewrite lookup_insert_eq; eauto|].
    unfold GamesObject.inherited. rewrite bool_decide_eq_true_2 by exact Hin.
    simpl. rewrite lookup_insert_eq. eauto.
Qed.

(** X23: The clean-up of the effect cancels both timers, stops the poll loop and
    closes the socket if there is one.  It leaves the socket's close handler
    in place: when fewer than two failures were counted, the close event
    that follows counts as one more and schedules a reconnect. *)
Theorem cleanup_keeps_close_handler st w :
  WsPage.wsRef st = Some w →
  0 ≤ WsPage.reconnectAttemptsRef st < 2 →
  let torn := WsPage.cleanup st in
  WsPage.reconnectTimeoutRef torn.1 = None ∧
  WsPage.pollingTimeoutRef torn.1 = None ∧
  WsPage.pollingRef torn.1 = false ∧
  WsPage.CloseWebSocket ∈ torn.2 ∧
  WsPage.enabled WsPage.Onclose torn.1 = true ∧
  (WsPage.step WsPage.Onclose torn.1).2
    = [WsPage.SetTimeoutConnect
         (if decide (WsPage.reconnectAttemptsRef st = 0) then 2000 else 4000)] ∧
  is_Some (WsPage.reconnectTimeoutRef (WsPage.step WsPage.Onclose torn.1).1).
Proof.
  destruct st as [v ct sg ws pr pt rt ra pf]. simpl. intros -> Hra.
  assert (Hcases : ra = 0 ∨ ra = 1) by lia.
  destruct Hcases as [-> | ->], pt, rt; vm_compute;
    repeat split; try reflexivity; try (eexists; reflexivity);
    try (apply list_elem_of_here);
    try (apply list_elem_of_further, list_elem_of_here).
Qed.

Lemma cleanup_keeps_close_handler_witness :
  (WsPage.step WsPage.Onclose (WsPage.cleanup WsPage.mounted).1).2
  = [WsPage.SetTimeoutConnect 2000].
Proof.
  assert (Hws : WsPage.wsRef WsPage.mounted = Some WsPage.CONNECTING) by reflexivity.
  assert (Hra : 0 ≤ WsPage.reconnectAttemptsRef WsPage.mounted < 2)
    by (simpl; lia).
  destruct (cleanup_keeps_close_handler WsPage.mounted WsPage.CONNECTING Hws Hra)
    as (_ & _ & _ & _ & _ & H & _).
  exact H.
Defined.

(** ** The Socket.IO page across a reconnect *)

Lemma io_run_app l1 l2 st :
  IoPage.run (l1 ++ l2) st = IoPage.run l2 (IoPage.run l1 st).
Proof. revert st. induction l1 as [|ev l1 IH]; intros st; simpl; auto. Qed.

Lemma io_run_subscribedGames evs : ∀ st,
  IoPage.subscribedGames (IoPage.run evs st) = IoPage.subscribedGames st.
Proof.
  induction evs as [|ev evs IH]; intros st; [reflexivity|].
  simpl. rewrite IH. destruct st, ev as [name|[data|bytes|err]| |name|d|g]; reflexivity.
Qed.

Lemma mock_ids items : ∀ oracle,
  GameState.id <$> imap (λ i gameId, Relay.mock_state gameId (oracle i)) items = items.
Proof.
  induction items as [|g items IH]; intros oracle; [reflexivity|].
  simpl. f_equal. exact (IH (λ i, oracle (S i))).
Qed.

(** X25: On the Socket.IO page the list of subscribed games never changes, so an
    unsubscribe lasts until the next connect: the game is removed from the
    games shown, but the connect handler subscribes to all three games again
    and asks for their initial state, and the relay's reply shows the game
    again. *)
Theorem io_unsubscribe_undone_by_reconnect evs gameId name oracle :
  gameId ∈ IoPage.subscribedGames IoPage.mounted →
  let all := ["game1"; "game2"; "game3"] in
  let st := IoPage.run (evs ++ [IoPage.Unsubscribe gameId]) IoPage.mounted in
  let reconnected := IoPage.step (IoPage.Connect name) st in
  let reply := Relay.getInitialState (Relay.Array all) oracle in
  Client.games (IoPage.view st) !! gameId = None ∧
  reconnected.2 = [IoPage.EmitSubscribe all; IoPage.EmitGetInitialState all] ∧
  is_Some (Client.games
             (IoPage.view (IoPage.step (IoPage.InitialState reply) reconnected.1).1)
           !! gameId).
Proof.
  intros Hin all st reconnected reply.
  assert (Hsg : IoPage.subscribedGames st = all).
  { subst st. rewrite io_run_subscribedGames. reflexivity. }
  split; [|split].
  - subst st. rewrite io_run_app. simpl. apply lookup_delete_eq.
  - subst reconnected. unfold IoPage.step, IoPage.on_connect. simpl.
    rewrite Hsg. reflexivity.
  - subst reconnected reply. unfold Relay.getInitialState.
    unfold IoPage.step, IoPage.on_connect, IoPage.on_initialState. simpl.
    unfold Client.gamesMap. apply gamesMap_acc_some. right.
    change (gameId ∈ GameState.id <$>
              imap (λ i g, Relay.mock_state g (oracle i)) all).
    rewrite mock_ids. exact Hin.
Qed.

Lemma io_unsubscribe_undone_by_reconnect_witness :
  is_Some (Client.games
             (IoPage.view
                (IoPage.run
                   [IoPage.Unsubscribe "game2"; IoPage.Connect "websocket";
                    IoPage.InitialState
                      (Relay.getInitialState (Relay.Array ["game1"; "game2"; "game3"])
                         (λ _, {| Relay.homeDraw := 1; Relay.awayDraw := 0;
                                  Relay.clock := 5000 |}))]
                   IoPage.mounted)) !! "game2").
Proof.
  assert (Hin : "game2" ∈ IoPage.subscribedGames IoPage.mounted)
    by (apply list_elem_of_further, list_elem_of_here).
  destruct (io_unsubscribe_undone_by_reconnect [] "game2" "websocket"
              (λ _, {| Relay.homeDraw := 1; Relay.awayDraw := 0; Relay.clock := 5000 |})
              Hin) as (_ & _ & H).
  exact H.
Defined.

(** * Properties of the publisher *)

Lemma above_threshold_plain x :
  SFltb Publisher.threshold x = true → Js.is_negative_zero x = false.
Proof. destruct x as [[]|[]| |[] m e]; vm_compute; congruence. Qed.

Lemma move_above candidate current :
  SFltb Publisher.threshold current = true →
  SFltb Publisher.threshold (Publisher.move candidate current) = true.
Proof.
  intros H. destruct candidate as [newOdds|]; simpl; [|exact H].
  destruct (SFltb Publisher.threshold newOdds) eqn:E; assumption.
Qed.

(** The relation the loop keeps between the games at the start and now, and
    what it publishes. *)
Lemma run_sound (base : gmap string GameState.t) visits : ∀ st,
  (∀ k g, Publisher.games st !! k = Some g →
          GameState.id g = k ∧ Publisher.above g = true ∧
          ∃ g0, base !! k = Some g0 ∧ Relay.same_entity g0 g) →
  (∀ k g, Publisher.games (Publisher.run visits st) !! k = Some g →
          GameState.id g = k ∧ Publisher.above g = true ∧
          ∃ g0, base !! k = Some g0 ∧ Relay.same_entity g0 g) ∧
  ∃ new,
    Publisher.published (Publisher.run visits st) = Publisher.published st ++ new ∧
    Publisher.deltasPublished (Publisher.metrics (Publisher.run visits st))
      = Publisher.deltasPublished (Publisher.metrics st) + Z.of_nat (length new) ∧
    Forall (λ m, ∃ g0, base !! m.1 = Some g0 ∧ Relay.same_entity g0 m.2 ∧
                 GameState.id m.2 = m.1 ∧ Publisher.above m.2 = true) new.
Proof.
  induction visits as [|[gameID d] visits IH]; intros st Hinv.
  - split; [exact Hinv|]. exists []. rewrite app_nil_r. simpl.
    split; [reflexivity|]. split; [lia | constructor].
  - simpl Publisher.run.
    destruct (Publisher.games st !! gameID) as [game|] eqn:Hlook;
      [|unfold Publisher.visit; rewrite Hlook; apply IH; exact Hinv].
    destruct (Hinv gameID game Hlook) as (Hid & Habove & g0 & Hbase & Hsame).
    destruct (Publisher.updates d) eqn:Hupd;
      [|unfold Publisher.visit; rewrite Hlook, Hupd; apply IH; exact Hinv].
    set (game' :=
      {| GameState.id := GameState.id game;
         GameState.homeTeam := GameState.homeTeam game;
         GameState.awayTeam := GameState.awayTeam game;
         GameState.homeScore := GameState.homeScore game;
         GameState.awayScore := GameState.awayScore game;
         GameState.homeOdds :=
           Publisher.move (Publisher.homeCandidate d) (GameState.homeOdds game);
         GameState.awayOdds :=
           Publisher.move (Publisher.awayCandidate d) (GameState.awayOdds game);
         GameState.drawOdds :=
           Publisher.move (Publisher.drawCandidate d) (GameState.drawOdds game);
         GameState.lastUpdated := Publisher.clock d |}).
    assert (Habove' : Publisher.above game' = true).
    { unfold Publisher.above in *. simpl.
      apply andb_prop in Habove as [Hab Hc]. apply andb_prop in Hab as [Ha Hb].
      rewrite !move_above by assumption. reflexivity. }
    assert (Hinv' : ∀ k g, <[gameID := game']> (Publisher.games st) !! k = Some g →
              GameState.id g = k ∧ Publisher.above g = true ∧
              ∃ g0, base !! k = Some g0 ∧ Relay.same_entity g0 g).
    { intros k g. destruct (decide (k = gameID)) as [->|Hne].
      - rewrite lookup_insert_eq. intros [= <-].
        split; [exact Hid|]. split; [exact Habove'|]. exists g0.
        split; [exact Hbase | exact Hsame].
      - rewrite lookup_insert_ne by congruence. apply Hinv. }
    unfold Publisher.visit. rewrite Hlook, Hupd. fold game'.
    destruct (Publisher.json_Marshal game') as [data|] eqn:Hdata; cbv zeta.
    + assert (data = game') as ->.
      { unfold Publisher.json_Marshal in Hdata.
        destruct (_ && _) in Hdata; congruence. }
      destruct (Publisher.publishOk d).
      * match goal with
        | |- context [Publisher.run visits ?s] =>
            destruct (IH s Hinv') as (Hgames & new & Hpub & Hcount & Hnew)
        end.
        split; [exact Hgames|]. exists ((gameID, game') :: new).
        rewrite Hpub, Hcount. simpl. rewrite <- app_assoc.
        split; [reflexivity|]. split; [lia|].
        constructor; [|exact Hnew]. simpl. exists g0.
        repeat split; try assumption; apply Hsame.
      * match goal with
        | |- context [Publisher.run visits ?s] => exact (IH s Hinv')
        end.
    + match goal with
      | |- context [Publisher.run visits ?s] => exact (IH s Hinv')
      end.
Qed.

(** X26: If every game is stored under its identifier with all three odds above
    1.01 when the update loop starts, then, whatever is drawn and whatever
    Redis accepts, every message published afterwards is sent on the channel
    named by the game's identifier, carries the identifier and team names
    the game started with and odds above 1.01 (so never a negative zero),
    and [deltasPublished] grows by the number of messages accepted. *)
Theorem publisher_output visits st :
  (∀ k g, Publisher.games st !! k = Some g →
          GameState.id g = k ∧ Publisher.above g = true) →
  let st' := Publisher.run visits st in
  let new := drop (length (Publisher.published st)) (Publisher.published st') in
  Publisher.published st' = Publisher.published st ++ new ∧
  Publisher.deltasPublished (Publisher.metrics st')
    = Publisher.deltasPublished (Publisher.metrics st) + Z.of_nat (length new) ∧
  Forall (λ m, ∃ g0, Publisher.games st !! m.1 = Some g0 ∧
               Relay.same_entity g0 m.2 ∧ GameState.id m.2 = m.1 ∧
               Publisher.above m.2 = true ∧ Relay.plain_odds m.2) new ∧
  (∀ k g, Publisher.games st' !! k = Some g →
          GameState.id g = k ∧ Publisher.above g = true).
Proof.
  intros Hinv st' new.
  destruct (run_sound (Publisher.games st) visits st) as (Hgames & l & Hpub & Hcount & Hl).
  { intros k g Hlook. destruct (Hinv k g Hlook) as [Hid Habove].
    split; [exact Hid|]. split; [exact Habove|]. exists g.
    split; [exact Hlook|]. repeat split; reflexivity. }
  assert (Hnew : new = l).
  { subst new st'. rewrite Hpub, drop_app_length. reflexivity. }
  rewrite Hnew. fold st' in Hpub, Hcount, Hgames.
  split; [exact Hpub|]. split; [exact Hcount|]. split.
  - eapply Forall_impl; [exact Hl|].
    intros m (g0 & Hbase & Hsame & Hid & Habove). exists g0.
    repeat split; try assumption; try apply Hsame;
      unfold Publisher.above in Habove;
      apply andb_prop in Habove as [Hab Hc]; apply andb_prop in Hab as [Ha Hb];
      apply above_threshold_plain; assumption.
  - intros k g Hlook. destruct (Hgames k g Hlook) as (Hid & Habove & _).
    split; assumption.
Qed.

Lemma start_sound clock k g :
  Publisher.games (Publisher.start clock) !! k = Some g →
  GameState.id g = k ∧ Publisher.above g = true.
Proof.
  simpl. unfold Publisher.initializeGames. intros H.
  destruct (decide (k = "game1")) as [->|H1].
  { rewrite lookup_insert_eq in H. injection H as <-. split; reflexivity. }
  rewrite lookup_insert_ne in H by congruence.
  destruct (decide (k = "game2")) as [->|H2].
  { rewrite lookup_insert_eq in H. injection H as <-. split; reflexivity. }
  rewrite lookup_insert_ne in H by congruence.
  destruct (decide (k = "game3")) as [->|H3].
  { rewrite lookup_singleton_eq in H. injection H as <-. split; reflexivity. }
  rewrite lookup_singleton_ne in H by congruence. discriminate.
Qed.

Lemma publisher_output_witness :
  let d := {| Publisher.updates := true;
              Publisher.homeCandidate := Some Sample.odds_2_3;
              Publisher.awayCandidate := Some (S754_zero true);
              Publisher.drawCandidate := None;
              Publisher.clock := 1200;
              Publisher.publishOk := true |} in
  Publisher.deltasPublished
    (Publisher.metrics (Publisher.run [("game1", d)] (Publisher.start (λ _, 1000))))
  = 1.
Proof.
  intros d.
  destruct (publisher_output [("game1", d)] (Publisher.start (λ _, 1000))
              (start_sound (λ _, 1000))) as (_ & Hcount & _).
  rewrite Hcount. vm_compute. reflexivity.
Defined.
